(** * The EAL alarm engine of DPDK 22.11.3 (lib/eal/linux/eal_alarm.c)

    A shallow embedding of the one-shot alarm scheduler: the pending list
    [alarm_list], [rte_eal_alarm_set], [rte_eal_alarm_cancel] and the
    dispatch routine [eal_alarm_callback].

    Conventions of the embedding.
    - C integers are [Z].  Unsigned 64-bit arithmetic ([uint64_t]) wraps
      modulo 2^64, written out with [wrap64]; a conversion to a signed
      64-bit type ([time_t], [suseconds_t], [long]) is [to_int64].
      Arithmetic on signed operands is left in [Z]: its overflow is
      undefined in C, and the theorems that depend on it state the range
      of their inputs.
    - Pointers are addresses in [Z]; [NULL] is 0 and [(void * )-1] is the
      all-ones address.  A list node is identified by the address
      [calloc] returned for it (field [addr]).
    - The pending list, a BSD [LIST], is a [list alarm_entry] in link
      order.
    - A critical section of [alarm_list_lk] is one atomic step.  What
      other threads and the user callback do while the lock is released
      is a function on the pending list supplied by the environment.
    - Calls that leave the file ([rte_intr_callback_register],
      [timerfd_settime], the user callback, [free], lock and unlock) are
      recorded as a trace of [event]s; what they return is supplied by
      the environment.  [rte_eal_alarm_set] does not look at what
      [clock_gettime] returns; the dispatch loop does, and leaves the loop
      when the call fails. *)

From Stdlib Require Import ZArith List Bool Lia Sorted.
Import ListNotations.
Local Open Scope Z_scope.

(** ** Constants of the source and of its headers *)

Definition NS_PER_US : Z := 1000.
Definition US_PER_MS : Z := 1000.
Definition MS_PER_S : Z := 1000.
Definition US_PER_S : Z := US_PER_MS * MS_PER_S.

Definition UINT64_MAX : Z := 2 ^ 64 - 1.
Definition INT64_MAX : Z := 2 ^ 63 - 1.

(** errno values of Linux (asm-generic/errno-base.h, errno.h). *)
Definition ENOENT : Z := 2.
Definition ENOMEM : Z := 12.
Definition EINVAL : Z := 22.
Definition EINPROGRESS : Z := 115.

Definition NULL : Z := 0.
(** [(void * )-1] on a 64-bit target. *)
Definition VOID_MINUS_ONE : Z := 2 ^ 64 - 1.

(** ** Machine arithmetic *)

(** Reduction of a [uint64_t] result. *)
Definition wrap64 (x : Z) : Z := x mod 2 ^ 64.

(** Conversion of a 64-bit pattern to a signed 64-bit type. *)
Definition to_int64 (x : Z) : Z :=
  let u := wrap64 x in if u <? 2 ^ 63 then u else u - 2 ^ 64.

(** ** Data model *)

(** [struct timeval]. *)
Record timeval := { tv_sec : Z; tv_usec : Z }.

(** [struct timespec]. *)
Record timespec := { ts_sec : Z; ts_nsec : Z }.

(** [struct itimerspec]. *)
Record itimerspec := { it_interval : timespec; it_value : timespec }.

(** [struct alarm_entry]; [addr] is the address of the record. *)
Record alarm_entry := {
  addr : Z;
  time : timeval;
  cb_fn : Z;
  cb_arg : Z;
  executing : Z;
  executing_id : Z
}.

Definition alarm_list_t := list alarm_entry.

(** Calls that leave the file, in program order. *)
Inductive event :=
| EvLock
| EvUnlock
| EvRegister
| EvSettime (value : itimerspec)
| EvCall (fn arg : Z)
| EvFree (a : Z).

(** The file's static state: [alarm_list] and [handler_registered]. *)
Record engine := {
  alarm_list : alarm_list_t;
  handler_registered : bool
}.

(** ** Order on deadlines *)

(** [a] is strictly later than [b]: the test of the insertion loop. *)
Definition timeval_gt (a b : timeval) : bool :=
  (tv_sec a >? tv_sec b) || ((tv_sec a =? tv_sec b) && (tv_usec a >? tv_usec b)).

(** Lexicographic order on (seconds, microseconds). *)
Definition timeval_le (a b : timeval) : Prop :=
  tv_sec a < tv_sec b \/ (tv_sec a = tv_sec b /\ tv_usec a <= tv_usec b).

Definition timeval_lt (a b : timeval) : Prop :=
  tv_sec a < tv_sec b \/ (tv_sec a = tv_sec b /\ tv_usec a < tv_usec b).

Definition entry_le (a b : alarm_entry) : Prop := timeval_le (time a) (time b).

Definition entry_lt (a b : alarm_entry) : Prop := timeval_lt (time a) (time b).

(** The pending list is sorted non-decreasingly by deadline. *)
Definition sorted (l : alarm_list_t) : Prop := Sorted entry_le l.

(** ** [rte_eal_alarm_set] *)

(** What the environment answers during one call of [rte_eal_alarm_set]. *)
Record set_env := {
  se_now : timespec;          (* clock_gettime(CLOCK_TYPE_ID, &now) *)
  se_calloc : option Z;       (* calloc: the new address, or None for NULL *)
  se_register : Z;            (* rte_intr_callback_register(...) *)
  se_settime_ok : bool        (* timerfd_settime(...) succeeded *)
}.

(** The return value of [timerfd_settime]: 0, or -1 on error. *)
Definition settime_ret (ok : bool) : Z := if ok then 0 else -1.

(** The sum [(now.tv_nsec / NS_PER_US) + us], computed in [uint64_t]. *)
Definition usec_sum (now : timespec) (us : Z) : Z :=
  wrap64 (wrap64 (Z.quot (ts_nsec now) NS_PER_US) + us).

(** Lines 151-152: the absolute deadline. *)
Definition deadline (now : timespec) (us : Z) : timeval :=
  {| tv_usec := to_int64 (usec_sum now us mod US_PER_S);
     tv_sec := to_int64 (wrap64 (ts_sec now) + usec_sum now us / US_PER_S) |}.

(** Lines 165-176: the [LIST_FOREACH] over a non-empty list [ap :: rest]. *)
Fixpoint insert_foreach (new_alarm ap : alarm_entry) (rest : alarm_list_t)
  : alarm_list_t :=
  if timeval_gt (time ap) (time new_alarm)
  then new_alarm :: ap :: rest                         (* LIST_INSERT_BEFORE *)
  else match rest with
       | [] => [ap; new_alarm]                         (* LIST_INSERT_AFTER *)
       | ap' :: rest' => ap :: insert_foreach new_alarm ap' rest'
       end.

(** Lines 162-177. *)
Definition list_insert (new_alarm : alarm_entry) (l : alarm_list_t)
  : alarm_list_t :=
  match l with
  | [] => [new_alarm]                                  (* LIST_INSERT_HEAD *)
  | ap :: rest => insert_foreach new_alarm ap rest
  end.

(** [LIST_FIRST(&alarm_list) == new_alarm]. *)
Definition first_is (a : Z) (l : alarm_list_t) : bool :=
  match l with
  | [] => false
  | ap :: _ => addr ap =? a
  end.

(** Line 139. *)
Definition set_rejects (us fn : Z) : bool :=
  (us <? 1) || (us >? UINT64_MAX - US_PER_S) || (fn =? NULL).

(** The record filled in at lines 142-152 ([calloc] zeroes the flags). *)
Definition make_alarm (a : Z) (now : timespec) (us fn arg : Z) : alarm_entry :=
  {| addr := a; time := deadline now us; cb_fn := fn; cb_arg := arg;
     executing := 0; executing_id := 0 |}.

(** Lines 155-160. *)
Definition try_register (env : set_env) (st : engine) : bool * list event :=
  if handler_registered st then (true, [])
  else (se_register env =? 0, [EvRegister]).

(** Lines 180-189: the relative time given to the timer. *)
Definition set_itimer (us : Z) : itimerspec :=
  {| it_interval := {| ts_sec := 0; ts_nsec := 0 |};
     it_value := {| ts_sec := to_int64 (us / US_PER_S);
                    ts_nsec := to_int64 (wrap64 ((us mod US_PER_S) * NS_PER_US)) |} |}.

(** [rte_eal_alarm_set(us, cb_fn, cb_arg)]: return value, new state, trace. *)
Definition rte_eal_alarm_set (env : set_env) (us fn arg : Z) (st : engine)
  : Z * engine * list event :=
  if set_rejects us fn then (- EINVAL, st, [])
  else
    match se_calloc env with
    | None => (- ENOMEM, st, [])
    | Some a =>
        let new_alarm := make_alarm a (se_now env) us fn arg in
        let '(reg, reg_tr) := try_register env st in
        let l := list_insert new_alarm (alarm_list st) in
        let '(ret, arm_tr) :=
          if first_is a l
          then (Z.lor 0 (settime_ret (se_settime_ok env)),
                [EvSettime (set_itimer us)])
          else (0, []) in
        (ret, {| alarm_list := l; handler_registered := reg |},
         [EvLock] ++ reg_tr ++ arm_tr ++ [EvUnlock])
    end.

(** ** [rte_eal_alarm_cancel] *)

(** [pthread_equal]: non-zero when the two thread ids are equal. *)
Definition pthread_equal (a b : Z) : Z := if a =? b then 1 else 0.

(** The test of lines 214-215 and 240-241. *)
Definition matches (fn arg : Z) (ap : alarm_entry) : bool :=
  (fn =? cb_fn ap) && ((arg =? VOID_MINUS_ONE) || (arg =? cb_arg ap)).

(** The locals [count], [err], [executing] of the function, and the
    addresses given to [free] during the current pass. *)
Record locals := {
  count : Z;
  err : Z;
  n_executing : Z;
  freed : list Z
}.

Definition removed (ap : alarm_entry) (s : locals) : locals :=
  {| count := count s + 1; err := err s; n_executing := n_executing s;
     freed := freed s ++ [addr ap] |}.

(** Lines 227-230 and 248-251: a matching entry whose callback runs. *)
Definition busy (self : Z) (ap : alarm_entry) (s : locals) : locals :=
  if pthread_equal (executing_id ap) self =? 0
  then {| count := count s; err := err s; n_executing := n_executing s + 1;
          freed := freed s |}
  else {| count := count s; err := EINPROGRESS; n_executing := n_executing s;
          freed := freed s |}.

(** Lines 213-234: remove matches at the start of the list. *)
Fixpoint drain_head (self fn arg : Z) (l : alarm_list_t) (s : locals)
  : alarm_list_t * locals :=
  match l with
  | [] => (l, s)
  | ap :: rest =>
      if matches fn arg ap then
        if executing ap =? 0
        then drain_head self fn arg rest (removed ap s)
        else (l, busy self ap s)                                  (* break *)
      else (l, s)
  end.

(** Lines 238-254: the [LIST_FOREACH] over the whole list.  A removed
    node is unlinked and the cursor steps back to [ap_prev], so the walk
    continues with the successor of the removed node.  The walk starts
    on the list the head drain left, whose first node is never one to
    remove, so [ap_prev] is a linked node whenever it is used. *)
Fixpoint sweep (self fn arg : Z) (l : alarm_list_t) (s : locals)
  : alarm_list_t * locals :=
  match l with
  | [] => ([], s)
  | ap :: rest =>
      if matches fn arg ap then
        if executing ap =? 0
        then sweep self fn arg rest (removed ap s)
        else let '(rest', s') := sweep self fn arg rest (busy self ap s) in
             (ap :: rest', s')
      else let '(rest', s') := sweep self fn arg rest s in
           (ap :: rest', s')
  end.

(** Lines 210-255: one pass of the [do ... while] body, under the lock. *)
Definition cancel_pass (self fn arg : Z) (l : alarm_list_t) (cnt er : Z)
  : alarm_list_t * locals :=
  let s0 := {| count := cnt; err := er; n_executing := 0; freed := [] |} in
  let '(l1, s1) := drain_head self fn arg l s0 in
  sweep self fn arg l1 s1.

(** What a call returns and leaves behind.  [cr_seen] is not program
    state: it lists the pending list as each pass found it. *)
Record cancel_result := {
  cr_ret : Z;
  cr_errno : Z;
  cr_list : alarm_list_t;
  cr_seen : list alarm_list_t;
  cr_trace : list event
}.

(** The locals and the list when the [do ... while] loop is left. *)
Record loop_exit := {
  le_list : alarm_list_t;
  le_count : Z;
  le_err : Z;
  le_seen : list alarm_list_t;
  le_trace : list event
}.

(** Lines 209-256.  Between two passes the lock is free: [others] gives,
    for each such gap, what the other threads do to the list.  The loop
    spins as long as a pass counted an entry running elsewhere; [None]
    means it is still spinning when [others] is used up. *)
Fixpoint cancel_loop (self fn arg : Z)
    (others : list (alarm_list_t -> alarm_list_t))
    (l : alarm_list_t) (cnt er : Z) : option loop_exit :=
  let '(l', s) := cancel_pass self fn arg l cnt er in
  let tr := [EvLock] ++ map EvFree (freed s) ++ [EvUnlock] in
  if negb (n_executing s =? 0) then
    match others with
    | [] => None
    | step :: others' =>
        match cancel_loop self fn arg others' (step l') (count s) (err s) with
        | None => None
        | Some x =>
            Some {| le_list := le_list x; le_count := le_count x;
                    le_err := le_err x; le_seen := l :: le_seen x;
                    le_trace := tr ++ le_trace x |}
        end
    end
  else Some {| le_list := l'; le_count := count s; le_err := err s;
               le_seen := [l]; le_trace := tr |}.

(** Lines 258-261: the value left in [rte_errno]. *)
Definition cancel_errno (cnt er errno : Z) : Z :=
  if (cnt =? 0) && (er =? 0) then ENOENT
  else if negb (er =? 0) then er
  else errno.

(** [rte_eal_alarm_cancel(cb_fn, cb_arg)] called by thread [self] with
    [rte_errno] holding [errno]. *)
Definition rte_eal_alarm_cancel (self fn arg : Z)
    (others : list (alarm_list_t -> alarm_list_t))
    (errno : Z) (l : alarm_list_t) : option cancel_result :=
  if fn =? NULL then
    Some {| cr_ret := -1; cr_errno := EINVAL; cr_list := l; cr_seen := [];
            cr_trace := [] |}
  else
    match cancel_loop self fn arg others l 0 0 with
    | None => None
    | Some x =>
        Some {| cr_ret := le_count x;
                cr_errno := cancel_errno (le_count x) (le_err x) errno;
                cr_list := le_list x; cr_seen := le_seen x;
                cr_trace := le_trace x |}
    end.

(** ** [eal_alarm_callback], the dispatch routine *)

(** One evaluation of the loop condition and, when the head is due, the
    time the lock is released around its callback: [w_clock] is what
    [clock_gettime] returns at line 97 (0 on success), [w_now] the clock
    reading it stores on success, [w_during] what the callback and the
    other threads do to the pending list before line 106 takes the lock
    again. *)
Record window := {
  w_clock : Z;
  w_now : timespec;
  w_during : alarm_list_t -> alarm_list_t
}.

(** Lines 98-99: the deadline of [ap] is not after [now]. *)
Definition due (ap : alarm_entry) (now : timespec) : bool :=
  (tv_sec (time ap) <? ts_sec now)
  || ((tv_sec (time ap) =? ts_sec now)
      && (tv_usec (time ap) * NS_PER_US <=? ts_nsec now)).

(** Lines 100-101. *)
Definition mark_executing (self : Z) (ap : alarm_entry) : alarm_entry :=
  {| addr := addr ap; time := time ap; cb_fn := cb_fn ap; cb_arg := cb_arg ap;
     executing := 1; executing_id := self |}.

(** [LIST_REMOVE(ap, next)]: unlink the node at address [a]. *)
Fixpoint list_remove (a : Z) (l : alarm_list_t) : alarm_list_t :=
  match l with
  | [] => []
  | x :: rest => if addr x =? a then rest else x :: list_remove a rest
  end.

(** The list and [now] when the loop of lines 96-110 is left.  [dx_fired]
    and [dx_shown] are not program state: the entries whose callback was
    invoked, as the loop found them, and the list as it stood each time
    the lock was released. *)
Record drain_exit := {
  dx_list : alarm_list_t;
  dx_now : timespec;
  dx_fired : list alarm_entry;
  dx_shown : list alarm_list_t;
  dx_trace : list event
}.

(** The calls of one iteration, lines 102-109. *)
Definition fire_trace (ap : alarm_entry) : list event :=
  [EvUnlock; EvCall (cb_fn ap) (cb_arg ap); EvLock; EvFree (addr ap)].

(** Lines 96-110.  [now] is the current content of the local [now]; a
    failing [clock_gettime] ends the loop and leaves [now] as it was.
    [None] means the loop is still running when [ws] is used up. *)
Fixpoint drain_due (self : Z) (ws : list window) (now : timespec)
    (l : alarm_list_t) : option drain_exit :=
  match l with
  | [] => Some {| dx_list := []; dx_now := now; dx_fired := [];
                  dx_shown := []; dx_trace := [] |}
  | ap :: rest =>
      match ws with
      | [] => None
      | w :: ws' =>
          if w_clock w =? 0 then
            if due ap (w_now w) then
              let shown := mark_executing self ap :: rest in
              match drain_due self ws' (w_now w)
                      (list_remove (addr ap) (w_during w shown)) with
              | None => None
              | Some x =>
                  Some {| dx_list := dx_list x; dx_now := dx_now x;
                          dx_fired := ap :: dx_fired x;
                          dx_shown := shown :: dx_shown x;
                          dx_trace := fire_trace ap ++ dx_trace x |}
              end
            else Some {| dx_list := l; dx_now := w_now w; dx_fired := [];
                         dx_shown := []; dx_trace := [] |}
          else Some {| dx_list := l; dx_now := now; dx_fired := [];
                       dx_shown := []; dx_trace := [] |}
      end
  end.

(** Lines 115-125: the relative time until the deadline of [ap]. *)
Definition next_expiry (ap : alarm_entry) (now : timespec) : itimerspec :=
  let nsec := tv_usec (time ap) * NS_PER_US in
  let '(s, n) :=
    if ts_nsec now >? tv_usec (time ap) * NS_PER_US
    then (tv_sec (time ap) - 1, nsec + US_PER_S * NS_PER_US)
    else (tv_sec (time ap), nsec) in
  {| it_interval := {| ts_sec := 0; ts_nsec := 0 |};
     it_value := {| ts_sec := s - ts_sec now; ts_nsec := n - ts_nsec now |} |}.

(** Lines 114-127. *)
Definition rearm (l : alarm_list_t) (now : timespec) : list event :=
  match l with
  | [] => []
  | ap :: _ => [EvSettime (next_expiry ap now)]
  end.

(** [eal_alarm_callback] run by thread [self]; [now0] is the content of
    the uninitialised local [now]. *)
Definition eal_alarm_callback (self : Z) (ws : list window) (now0 : timespec)
    (l : alarm_list_t) : option drain_exit :=
  match drain_due self ws now0 l with
  | None => None
  | Some x =>
      Some {| dx_list := dx_list x; dx_now := dx_now x;
              dx_fired := dx_fired x; dx_shown := dx_shown x;
              dx_trace := [EvLock] ++ dx_trace x
                          ++ rearm (dx_list x) (dx_now x) ++ [EvUnlock] |}
  end.

(** ** The three kinds of matching entry a pass of cancel can meet *)

(** Matching and idle: the entry is unlinked and freed. *)
Definition removable (fn arg : Z) (ap : alarm_entry) : bool :=
  matches fn arg ap && (executing ap =? 0).

(** Matching, its callback being run by the calling thread. *)
Definition running_on_self (self fn arg : Z) (ap : alarm_entry) : bool :=
  matches fn arg ap && negb (executing ap =? 0)
  && negb (pthread_equal (executing_id ap) self =? 0).

(** Matching, its callback being run by another thread. *)
Definition running_elsewhere (self fn arg : Z) (ap : alarm_entry) : bool :=
  matches fn arg ap && negb (executing ap =? 0)
  && (pthread_equal (executing_id ap) self =? 0).

(** What is left of a list once its removable entries are gone. *)
Definition survivors (fn arg : Z) (l : alarm_list_t) : alarm_list_t :=
  filter (fun ap => negb (removable fn arg ap)) l.

(** How many entries of [l] satisfy [p], as a C [int]. *)
Definition count_of (p : alarm_entry -> bool) (l : alarm_list_t) : Z :=
  Z.of_nat (length (filter p l)).

(** Entries removed over the passes of one call. *)
Definition removed_over (fn arg : Z) (seen : list alarm_list_t) : Z :=
  fold_right (fun l n => count_of (removable fn arg) l + n) 0 seen.

(** The lock, the frees and the unlock of one pass. *)
Definition pass_trace (fn arg : Z) (l : alarm_list_t) : list event :=
  [EvLock] ++ map EvFree (map addr (filter (removable fn arg) l)) ++ [EvUnlock].

(** Each pass after the first finds the list that the pass before left,
    as changed by the other threads while the lock was free. *)
Fixpoint handed_over (fn arg : Z) (others : list (alarm_list_t -> alarm_list_t))
    (seen : list alarm_list_t) : Prop :=
  match seen with
  | l1 :: ((l2 :: _) as later) =>
      match others with
      | [] => False
      | step :: others' =>
          l2 = step (survivors fn arg l1) /\ handed_over fn arg others' later
      end
  | _ => True
  end.

(** ** What the dispatch loop relies on while the lock is released *)


(** The list stays sorted and the entry being executed by [self] stays
    where dispatch left it, at the head.  [rte_eal_alarm_cancel] never
    unlinks an executing entry, and [rte_eal_alarm_set] links a record
    behind every entry whose deadline is not later than its own. *)
Definition keeps_head (self : Z) (w : window) : Prop :=
  forall ap rest,
    executing ap = 1 -> executing_id ap = self -> sorted (ap :: rest) ->
    exists rest', w_during w (ap :: rest) = ap :: rest' /\ sorted (ap :: rest').

(** A clock reading with its nanoseconds in range. *)
Definition normalised (t : timespec) : Prop := 0 <= ts_nsec t < 1000000000.

(** Nanoseconds of a deadline and of a clock reading. *)
Definition timeval_ns (t : timeval) : Z := tv_sec t * 1000000000 + tv_usec t * 1000.
Definition timespec_ns (t : timespec) : Z := ts_sec t * 1000000000 + ts_nsec t.

(** ** Sample data used to run the definitions *)

(** Addresses of two callbacks and of three records. *)
Definition fn_f : Z := 4198400.
Definition fn_g : Z := 4198656.

Definition entry_at (a sec usec fn arg : Z) : alarm_entry :=
  {| addr := a; time := {| tv_sec := sec; tv_usec := usec |};
     cb_fn := fn; cb_arg := arg; executing := 0; executing_id := 0 |}.

(** An entry whose callback is being run by thread [tid]. *)
Definition running_at (a sec usec fn arg tid : Z) : alarm_entry :=
  {| addr := a; time := {| tv_sec := sec; tv_usec := usec |};
     cb_fn := fn; cb_arg := arg; executing := 1; executing_id := tid |}.

(** Two pending alarms, due at 10 s and at 12 s + 500 us. *)
Definition two_pending : engine :=
  {| alarm_list := [entry_at 4096 10 0 fn_g 1; entry_at 4160 12 500 fn_f 2];
     handler_registered := false |}.

(** The clock reads 11 s + 999500000 ns; [calloc] and [timerfd_settime]
    succeed; registering the handler fails. *)
Definition env_reg_fails : set_env :=
  {| se_now := {| ts_sec := 11; ts_nsec := 999500000 |};
     se_calloc := Some 4224; se_register := -1; se_settime_ok := true |}.

(** The same answers, with a successful registration. *)
Definition env_reg_ok : set_env :=
  {| se_now := {| ts_sec := 11; ts_nsec := 999500000 |};
     se_calloc := Some 4288; se_register := 0; se_settime_ok := true |}.

(** Thread ids: the dispatch thread and a worker. *)
Definition tid_dispatch : Z := 7.
Definition tid_worker : Z := 9.

(** Scenario 3 of the specification: two alarms of [fn_f] and one of
    [fn_g], all idle. *)
Definition three_idle : alarm_list_t :=
  [entry_at 4096 20 0 fn_f 11; entry_at 4160 20 0 fn_f 12;
   entry_at 4224 20 0 fn_g 13].

(** The head is being run by the dispatch thread; an idle sibling and an
    alarm of another callback follow. *)
Definition head_running : alarm_list_t :=
  [running_at 4096 10 0 fn_f 1 tid_dispatch; entry_at 4160 12 500 fn_f 2;
   entry_at 4224 13 0 fn_g 3].

(** Only the running head is an alarm of [fn_f]. *)
Definition only_running : alarm_list_t :=
  [running_at 4096 10 0 fn_f 1 tid_dispatch; entry_at 4224 13 0 fn_g 3].

(** What the dispatch thread does once the callback has returned:
    it unlinks the head. *)
Definition dispatch_finishes (l : alarm_list_t) : alarm_list_t := tl l.

(** Scenario 1 of the specification, once the three alarms are set:
    deadlines 10 ms, 20 ms and 30 ms after a clock reading of 0. *)
Definition three_sorted : alarm_list_t :=
  [entry_at 4160 0 10000 fn_f 2; entry_at 4224 0 20000 fn_f 3;
   entry_at 4096 0 30000 fn_f 1].

(** A window in which the clock is read, as [t], and nobody touches the
    list. *)
Definition quiet_at (t : timespec) : window :=
  {| w_clock := 0; w_now := t; w_during := fun l => l |}.

(** A window in which the callback cancels every alarm of its own
    function, from the dispatch thread. *)
Definition self_cancel_at (t : timespec) : window :=
  {| w_clock := 0; w_now := t;
     w_during := fun l => fst (cancel_pass tid_dispatch fn_f VOID_MINUS_ONE l 0 0) |}.

(** The clock 25 ms after 0. *)
Definition at_25ms : timespec := {| ts_sec := 0; ts_nsec := 25000000 |}.

(** The critical section of a [rte_eal_alarm_set] call made by another
    thread, as a step on the pending list. *)
Definition set_step (env : set_env) (us fn arg : Z) (l : alarm_list_t)
  : alarm_list_t :=
  alarm_list (snd (fst (rte_eal_alarm_set env us fn arg
                          {| alarm_list := l; handler_registered := true |}))).




(** The answers to a [rte_eal_alarm_set] call made when the clock reads
    0, with the record allocated at [a]. *)
Definition env_at_zero (a : Z) : set_env :=
  {| se_now := {| ts_sec := 0; ts_nsec := 0 |};
     se_calloc := Some a; se_register := 0; se_settime_ok := true |}.

(** The engine before the first call. *)
Definition engine_init : engine :=
  {| alarm_list := []; handler_registered := false |}.

(** ** [rte_eal_alarm_init] and [rte_eal_alarm_cleanup] *)

(** Calls to the interrupt library and to the kernel made while the
    timer handle is brought up and torn down. *)
Inductive intr_event :=
| IeAlloc                        (* rte_intr_instance_alloc *)
| IeTypeSet (h : Z)              (* rte_intr_type_set *)
| IeTimerfdCreate                (* timerfd_create *)
| IeFdSet (h fd : Z)             (* rte_intr_fd_set *)
| IeFdGet (h : Z)                (* rte_intr_fd_get *)
| IeFree (h : Z).                (* rte_intr_instance_free *)

(** What the environment answers during [rte_eal_alarm_init]. *)
Record init_env := {
  ie_alloc : Z;       (* the handle, NULL on failure *)
  ie_type_set : Z;    (* 0 on success *)
  ie_timerfd : Z;     (* the descriptor, or -1 *)
  ie_fd_set : Z;      (* 0 on success *)
  ie_fd_get : Z;      (* the descriptor read back *)
  ie_errno : Z        (* errno when the error path copies it *)
}.

(** Return value, the static [intr_handle], [rte_errno], and the calls. *)
Record init_result := {
  ir_ret : Z;
  ir_handle : Z;
  ir_errno : Z;
  ir_trace : list intr_event
}.

(** Lines 83-86, the [error] label, reached after the calls [tr]. *)
Definition init_error (env : init_env) (tr : list intr_event) : init_result :=
  {| ir_ret := -1; ir_handle := ie_alloc env; ir_errno := ie_errno env;
     ir_trace := tr ++ [IeFree (ie_alloc env)] |}.

(** Lines 61-87; [errno] is the content of [rte_errno] before the call. *)
Definition rte_eal_alarm_init (env : init_env) (errno : Z) : init_result :=
  let h := ie_alloc env in
  if h =? NULL then init_error env [IeAlloc]
  else if negb (ie_type_set env =? 0) then init_error env [IeAlloc; IeTypeSet h]
  else if negb (ie_fd_set env =? 0) then
    init_error env [IeAlloc; IeTypeSet h; IeTimerfdCreate; IeFdSet h (ie_timerfd env)]
  else if ie_fd_get env =? -1 then
    init_error env [IeAlloc; IeTypeSet h; IeTimerfdCreate; IeFdSet h (ie_timerfd env);
                    IeFdGet h]
  else
    {| ir_ret := 0; ir_handle := h; ir_errno := errno;
       ir_trace := [IeAlloc; IeTypeSet h; IeTimerfdCreate;
                    IeFdSet h (ie_timerfd env); IeFdGet h] |}.

(** Lines 55-59, with [intr_handle] holding [h]. *)
Definition rte_eal_alarm_cleanup (h : Z) : list intr_event := [IeFree h].

(** How often the handle [h] is given to [rte_intr_instance_free]. *)
Definition frees_of (h : Z) (tr : list intr_event) : nat :=
  length (filter (fun e => match e with IeFree h' => h' =? h | _ => false end) tr).

(** ** The lock discipline of a trace *)

(** [alarm_list_lk] is a spinlock that is not re-entrant.  Starting with
    the lock [held] or free, the trace is in order when the lock is
    taken only while free and released only while held, the user
    callback is called only while the lock is free, and registration,
    [timerfd_settime] and [free] happen only while it is held.  The
    result is the state of the lock after the trace, [None] when the
    trace is out of order. *)
Fixpoint lock_ok (held : bool) (tr : list event) : option bool :=
  match tr with
  | [] => Some held
  | EvLock :: tr' => if held then None else lock_ok true tr'
  | EvUnlock :: tr' => if held then lock_ok false tr' else None
  | EvCall _ _ :: tr' => if held then None else lock_ok false tr'
  | EvRegister :: tr' => if held then lock_ok true tr' else None
  | EvSettime _ :: tr' => if held then lock_ok true tr' else None
  | EvFree _ :: tr' => if held then lock_ok true tr' else None
  end.

(** ** Sequences of calls *)

(** One call of [rte_eal_alarm_set] with the answers it gets. *)
Record set_call := {
  sc_env : set_env;
  sc_us : Z;
  sc_fn : Z;
  sc_arg : Z
}.

(** The calls made one after the other: the values returned, the engine
    left, and the traces in order. *)
Fixpoint run_sets (calls : list set_call) (st : engine)
  : list Z * engine * list event :=
  match calls with
  | [] => ([], st, [])
  | c :: calls' =>
      let '(ret, st1, tr1) :=
        rte_eal_alarm_set (sc_env c) (sc_us c) (sc_fn c) (sc_arg c) st in
      let '(rets, st2, tr2) := run_sets calls' st1 in
      (ret :: rets, st2, tr1 ++ tr2)
  end.

(** A critical section of the API run by some thread while the lock is
    free: the locked part of a [rte_eal_alarm_set], or one pass of a
    [rte_eal_alarm_cancel] by thread [tid]. *)
Inductive api_step :=
| StepSet (env : set_env) (us fn arg : Z)
| StepCancel (tid fn arg : Z).

Definition apply_step (s : api_step) (l : alarm_list_t) : alarm_list_t :=
  match s with
  | StepSet env us fn arg => set_step env us fn arg l
  | StepCancel tid fn arg => fst (cancel_pass tid fn arg l 0 0)
  end.

Definition run_steps (steps : list api_step) (l : alarm_list_t) : alarm_list_t :=
  fold_left (fun l s => apply_step s l) steps l.

(** A window of dispatch in which the clock reads [t] and the given
    critical sections run. *)
Definition api_window (t : timespec) (steps : list api_step) : window :=
  {| w_clock := 0; w_now := t; w_during := run_steps steps |}.

(** The microseconds of every deadline are in [0, 10^6). *)
Definition usec_in_range (l : alarm_list_t) : Prop :=
  Forall (fun ap => 0 <= tv_usec (time ap) < 1000000) l.

(** The entries whose callback is running, in list order. *)
Definition executing_entries (l : alarm_list_t) : alarm_list_t :=
  filter (fun ap => negb (executing ap =? 0)) l.

(** No entry of the list is marked as executing. *)
Definition all_idle (l : alarm_list_t) : Prop :=
  Forall (fun ap => executing ap = 0) l.

(** ** The list and the clock along the turns of the dispatch loop *)

(** The list after the first [k] turns of the loop: in each turn the
    head is marked, the window runs, and the node of the head is
    unlinked. *)
Fixpoint after_turns (self : Z) (ws : list window) (k : nat) (l : alarm_list_t)
  : alarm_list_t :=
  match k, ws, l with
  | S k', w :: ws', ap :: rest =>
      after_turns self ws' k'
        (list_remove (addr ap) (w_during w (mark_executing self ap :: rest)))
  | _, _, _ => l
  end.

(** The content of the local [now] after [k] turns: the reading of the
    last of them, or what [now] held before the first. *)
Fixpoint now_after (ws : list window) (k : nat) (now : timespec) : timespec :=
  match k, ws with
  | S k', w :: ws' => now_after ws' k' (w_now w)
  | _, _ => now
  end.








(** * Properties *)

(** ** Deadline order *)

Lemma timeval_gt_true (a b : timeval) :
  timeval_gt a b = true <-> timeval_lt b a.
Proof.
  unfold timeval_gt, timeval_lt.
  rewrite orb_true_iff, andb_true_iff, !Z.gtb_lt, Z.eqb_eq. lia.
Qed.

Lemma timeval_gt_false (a b : timeval) :
  timeval_gt a b = false <-> timeval_le a b.
Proof.
  unfold timeval_gt, timeval_le.
  rewrite orb_false_iff, andb_false_iff, !Z.gtb_ltb, !Z.ltb_ge, Z.eqb_neq. lia.
Qed.

Lemma timeval_le_refl (a : timeval) : timeval_le a a.
Proof. unfold timeval_le. lia. Qed.

Lemma timeval_le_trans (a b c : timeval) :
  timeval_le a b -> timeval_le b c -> timeval_le a c.
Proof. unfold timeval_le. lia. Qed.

Lemma timeval_lt_le (a b : timeval) : timeval_lt a b -> timeval_le a b.
Proof. unfold timeval_lt, timeval_le. lia. Qed.

Lemma timeval_le_lt_trans (a b c : timeval) :
  timeval_le a b -> timeval_lt b c -> timeval_lt a c.
Proof. unfold timeval_le, timeval_lt. lia. Qed.

Lemma timeval_lt_not_le (a b : timeval) : timeval_lt a b -> ~ timeval_le b a.
Proof. unfold timeval_le, timeval_lt. lia. Qed.

Lemma entry_le_trans : forall a b c, entry_le a b -> entry_le b c -> entry_le a c.
Proof. unfold entry_le. intros a b c. apply timeval_le_trans. Qed.

(** A sorted list is sorted pairwise. *)
Lemma sorted_all_le (ap : alarm_entry) (l : alarm_list_t) :
  sorted (ap :: l) -> Forall (entry_le ap) l.
Proof.
  intros H. apply Sorted_StronglySorted in H.
  - now inversion H.
  - exact entry_le_trans.
Qed.

Lemma sorted_tail (ap : alarm_entry) (l : alarm_list_t) :
  sorted (ap :: l) -> sorted l.
Proof. intros H. now inversion H. Qed.

(** ** Insertion *)

(** [insert_foreach] splits the list at the first entry that is strictly
    later than the new one. *)
Lemma insert_foreach_split (new_alarm : alarm_entry) (rest : alarm_list_t) :
  forall ap, exists before after,
    ap :: rest = before ++ after /\
    insert_foreach new_alarm ap rest = before ++ new_alarm :: after /\
    Forall (fun x => entry_le x new_alarm) before /\
    (match after with
     | [] => True
     | x :: _ => entry_lt new_alarm x
     end).
Proof.
  induction rest as [|ap' rest IH]; intros ap; simpl;
    destruct (timeval_gt (time ap) (time new_alarm)) eqn:G.
  - exists [], [ap]. apply timeval_gt_true in G. repeat split; auto.
  - exists [ap], []. apply timeval_gt_false in G. repeat split; auto.
  - exists [], (ap :: ap' :: rest). apply timeval_gt_true in G.
    repeat split; auto.
  - destruct (IH ap') as (before & after & E & I & B & A).
    exists (ap :: before), after. apply timeval_gt_false in G.
    rewrite I, E. repeat split; auto.
Qed.

Lemma list_insert_split (new_alarm : alarm_entry) (l : alarm_list_t) :
  exists before after,
    l = before ++ after /\
    list_insert new_alarm l = before ++ new_alarm :: after /\
    Forall (fun x => entry_le x new_alarm) before /\
    (match after with
     | [] => True
     | x :: _ => entry_lt new_alarm x
     end).
Proof.
  destruct l as [|ap rest].
  - exists [], []. repeat split; auto.
  - apply insert_foreach_split.
Qed.

(** In a sorted list everything behind a later entry is later too. *)
Lemma sorted_after_later (new_alarm : alarm_entry) (after : alarm_list_t) :
  sorted after ->
  (match after with [] => True | x :: _ => entry_lt new_alarm x end) ->
  Forall (entry_lt new_alarm) after.
Proof.
  destruct after as [|x after]; intros S H; [constructor|].
  constructor; [exact H|].
  apply sorted_all_le in S.
  eapply Forall_impl; [|exact S].
  intros y Hy. unfold entry_lt, entry_le in *.
  unfold timeval_lt, timeval_le in *. lia.
Qed.

Lemma sorted_app_inv (l1 l2 : alarm_list_t) :
  sorted (l1 ++ l2) -> sorted l1 /\ sorted l2.
Proof.
  induction l1 as [|a l1 IH]; simpl; intros H.
  - split; [constructor | exact H].
  - inversion H as [|? ? S R]; subst. destruct (IH S) as [S1 S2].
    split; [|exact S2]. constructor; [exact S1|].
    destruct l1; simpl in *; [constructor|]. inversion R; now constructor.
Qed.

Lemma sorted_insert_middle (new_alarm : alarm_entry) (before after : alarm_list_t) :
  sorted (before ++ after) ->
  Forall (fun x => entry_le x new_alarm) before ->
  Forall (entry_lt new_alarm) after ->
  sorted (before ++ new_alarm :: after).
Proof.
  induction before as [|a before IH]; simpl; intros S B A.
  - constructor; [exact S|].
    destruct after; constructor. inversion A; subst.
    now apply timeval_lt_le.
  - inversion S as [|? ? S' R]; subst. inversion B; subst.
    constructor; [now apply IH|].
    destruct before; simpl in *; constructor; [assumption|].
    now inversion R.
Qed.

(** Two cuts of one list that both put the entries not later than the new
    one in front and the strictly later ones behind are the same cut. *)
Lemma cut_unique (new_alarm : alarm_entry) :
  forall b1 a1 b2 a2 : alarm_list_t,
    b1 ++ a1 = b2 ++ a2 ->
    Forall (fun x => entry_le x new_alarm) b1 -> Forall (entry_lt new_alarm) a1 ->
    Forall (fun x => entry_le x new_alarm) b2 -> Forall (entry_lt new_alarm) a2 ->
    b1 = b2 /\ a1 = a2.
Proof.
  induction b1 as [|x b1 IH]; intros a1 b2 a2 E B1 A1 B2 A2.
  - destruct b2 as [|y b2]; [now split|].
    simpl in E. subst a1. inversion A1; subst. inversion B2; subst.
    exfalso. eapply timeval_lt_not_le; eauto.
  - destruct b2 as [|y b2].
    + simpl in E. subst a2. inversion A2; subst. inversion B1; subst.
      exfalso. eapply timeval_lt_not_le; eauto.
    + simpl in E. injection E as -> E. inversion B1; subst. inversion B2; subst.
      destruct (IH a1 b2 a2 E) as [-> ->]; auto.
Qed.

(** ** [rte_eal_alarm_set] *)

Lemma set_rejects_iff (us fn : Z) :
  set_rejects us fn = true <-> us < 1 \/ us > UINT64_MAX - 1000000 \/ fn = NULL.
Proof.
  unfold set_rejects.
  rewrite !orb_true_iff, Z.ltb_lt, Z.gtb_lt, Z.eqb_eq.
  change US_PER_S with 1000000. lia.
Qed.

(** A call that is admitted and gets its record: what it returns and
    what it leaves. *)
Lemma set_admitted (env : set_env) (us fn arg : Z) (st : engine) (a : Z) :
  set_rejects us fn = false -> se_calloc env = Some a ->
  let new_alarm := make_alarm a (se_now env) us fn arg in
  let l := list_insert new_alarm (alarm_list st) in
  rte_eal_alarm_set env us fn arg st =
    (if first_is a l then settime_ret (se_settime_ok env) else 0,
     {| alarm_list := l; handler_registered := fst (try_register env st) |},
     [EvLock] ++ snd (try_register env st)
       ++ (if first_is a l then [EvSettime (set_itimer us)] else [])
       ++ [EvUnlock]).
Proof.
  intros R C. unfold rte_eal_alarm_set. rewrite R, C.
  destruct (try_register env st) as [reg reg_tr]. simpl fst. simpl snd.
  destruct (first_is a _); [|reflexivity].
  destruct (se_settime_ok env); reflexivity.
Qed.

(** A call that returns 0 was admitted and got its record. *)
Lemma set_success_admitted (env : set_env) (us fn arg : Z) (st : engine) :
  fst (fst (rte_eal_alarm_set env us fn arg st)) = 0 ->
  set_rejects us fn = false /\ exists a, se_calloc env = Some a.
Proof.
  unfold rte_eal_alarm_set.
  destruct (set_rejects us fn); [discriminate|].
  destruct (se_calloc env) as [a|]; [|discriminate].
  intros _. split; [reflexivity | now exists a].
Qed.

(** C5. [rte_eal_alarm_set] returns [-EINVAL] exactly when [us < 1], or
    [us > UINT64_MAX - 10^6], or the callback is null; the call then
    leaves the engine as it found it and makes no outside call (no
    record is allocated, nothing is inserted). *)
Theorem set_einval_iff (env : set_env) (us fn arg : Z) (st : engine) :
  (fst (fst (rte_eal_alarm_set env us fn arg st)) = - EINVAL
   <-> us < 1 \/ us > UINT64_MAX - 1000000 \/ fn = NULL)
  /\ (fst (fst (rte_eal_alarm_set env us fn arg st)) = - EINVAL ->
      rte_eal_alarm_set env us fn arg st = (- EINVAL, st, [])).
Proof.
  rewrite <- set_rejects_iff.
  destruct (set_rejects us fn) eqn:R.
  - unfold rte_eal_alarm_set. rewrite R. simpl. tauto.
  - destruct (se_calloc env) as [a|] eqn:C.
    + rewrite (set_admitted env us fn arg st a R C). simpl fst.
      assert (N : (if first_is a (list_insert (make_alarm a (se_now env) us fn arg)
                                    (alarm_list st))
                   then settime_ret (se_settime_ok env) else 0) <> - EINVAL).
      { destruct (first_is a _); [destruct (se_settime_ok env)|]; discriminate. }
      split; [split; [intros H; now elim N | discriminate] | intros H; now elim N].
    + unfold rte_eal_alarm_set. rewrite R, C. simpl.
      split; [split; discriminate | discriminate].
Qed.

(** ** The deadline computed by [rte_eal_alarm_set] *)

Lemma wrap64_small (x : Z) : 0 <= x < 2 ^ 64 -> wrap64 x = x.
Proof. intros H. unfold wrap64. now apply Z.mod_small. Qed.

Lemma to_int64_small (x : Z) : 0 <= x < 2 ^ 63 -> to_int64 x = x.
Proof.
  intros H. unfold to_int64. rewrite wrap64_small by lia.
  destruct (x <? 2 ^ 63) eqn:E; [reflexivity|].
  apply Z.ltb_ge in E. lia.
Qed.

(** Under the admission bound and a normalised clock reading the sum of
    line 151 does not wrap. *)
Lemma usec_sum_exact (now : timespec) (us : Z) :
  1 <= us <= UINT64_MAX - 1000000 ->
  0 <= ts_nsec now < 1000000000 ->
  usec_sum now us = ts_nsec now / 1000 + us /\
  ts_nsec now / 1000 + us <= UINT64_MAX.
Proof.
  intros U N. unfold usec_sum. change NS_PER_US with 1000.
  rewrite Z.quot_div_nonneg by lia.
  assert (Q : 0 <= ts_nsec now / 1000 < 1000000).
  { split; [apply Z.div_pos; lia | apply Z.div_lt_upper_bound; lia]. }
  unfold UINT64_MAX in *.
  rewrite (wrap64_small (ts_nsec now / 1000)) by lia.
  rewrite wrap64_small by lia. lia.
Qed.

Lemma deadline_exact (now : timespec) (us : Z) :
  1 <= us <= UINT64_MAX - 1000000 ->
  0 <= ts_nsec now < 1000000000 ->
  0 <= ts_sec now <= INT64_MAX - UINT64_MAX / 1000000 ->
  tv_sec (deadline now us) * 1000000 + tv_usec (deadline now us)
    = ts_sec now * 1000000 + ts_nsec now / 1000 + us
  /\ 0 <= tv_usec (deadline now us) < 1000000.
Proof.
  intros U N S. destruct (usec_sum_exact now us U N) as [E B].
  unfold deadline. simpl. rewrite E. change US_PER_S with 1000000.
  set (m := ts_nsec now / 1000 + us) in *.
  assert (M0 : 0 <= m).
  { assert (0 <= ts_nsec now / 1000) by (apply Z.div_pos; lia). lia. }
  assert (R : 0 <= m mod 1000000 < 1000000) by (apply Z.mod_pos_bound; lia).
  assert (Q0 : 0 <= m / 1000000) by (apply Z.div_pos; lia).
  assert (Q1 : m / 1000000 <= UINT64_MAX / 1000000)
    by (apply Z.div_le_mono; lia).
  unfold UINT64_MAX, INT64_MAX in *.
  rewrite (to_int64_small (m mod 1000000)) by lia.
  rewrite (wrap64_small (ts_sec now)) by lia.
  rewrite to_int64_small by lia.
  split; [|exact R].
  pose proof (Z.div_mod m 1000000). lia.
Qed.

(** Whatever the clock reads, the microseconds stored are in range. *)
Lemma deadline_usec_range (now : timespec) (us : Z) :
  0 <= tv_usec (deadline now us) < 1000000.
Proof.
  unfold deadline. cbn [tv_usec]. change US_PER_S with 1000000.
  pose proof (Z.mod_pos_bound (usec_sum now us) 1000000 ltac:(lia)).
  rewrite to_int64_small; lia.
Qed.

Lemma in_insert_foreach (new_alarm : alarm_entry) (rest : alarm_list_t) :
  forall ap, In new_alarm (insert_foreach new_alarm ap rest).
Proof.
  induction rest as [|ap' rest IH]; intros ap; simpl;
    destruct (timeval_gt (time ap) (time new_alarm)); simpl; auto.
Qed.

Lemma in_list_insert (new_alarm : alarm_entry) (l : alarm_list_t) :
  In new_alarm (list_insert new_alarm l).
Proof.
  destruct l; simpl; [auto | apply in_insert_foreach].
Qed.

(** C6. The record stored by an admitted call holds the deadline
    [now + us]: seconds * 10^6 + microseconds equals
    [now_sec * 10^6 + now_nsec / 1000 + us], the microseconds lie in
    [0, 10^6), and the 64-bit sum [now_nsec / 1000 + us] does not wrap.
    The clock reading is a normalised [timespec] whose seconds leave room
    for the longest admitted delay. *)
Theorem set_deadline_exact (env : set_env) (us fn arg : Z) (st : engine) (a : Z) :
  set_rejects us fn = false ->
  se_calloc env = Some a ->
  0 <= ts_nsec (se_now env) < 1000000000 ->
  0 <= ts_sec (se_now env) <= INT64_MAX - UINT64_MAX / 1000000 ->
  exists e,
    In e (alarm_list (snd (fst (rte_eal_alarm_set env us fn arg st)))) /\
    addr e = a /\ cb_fn e = fn /\ cb_arg e = arg /\
    tv_sec (time e) * 1000000 + tv_usec (time e)
      = ts_sec (se_now env) * 1000000 + ts_nsec (se_now env) / 1000 + us /\
    0 <= tv_usec (time e) < 1000000 /\
    usec_sum (se_now env) us = ts_nsec (se_now env) / 1000 + us /\
    ts_nsec (se_now env) / 1000 + us <= UINT64_MAX.
Proof.
  intros R C N S.
  assert (U : 1 <= us <= UINT64_MAX - 1000000).
  { destruct (Z_lt_dec us 1) as [L|L];
      [|destruct (Z_gt_dec us (UINT64_MAX - 1000000)) as [G|G]; [|lia]].
    - assert (T : set_rejects us fn = true) by (apply set_rejects_iff; auto).
      congruence.
    - assert (T : set_rejects us fn = true) by (apply set_rejects_iff; auto).
      congruence. }
  rewrite (set_admitted env us fn arg st a R C). simpl.
  exists (make_alarm a (se_now env) us fn arg).
  destruct (deadline_exact (se_now env) us U N S) as [E B].
  destruct (usec_sum_exact (se_now env) us U N) as [E' B'].
  repeat split; try assumption; try apply B.
  apply in_list_insert.
Qed.

(** A clock reading of 5 s + 999999999 ns and the longest admitted delay. *)
Lemma set_deadline_exact_witness :
  exists e,
    In e (alarm_list (snd (fst (rte_eal_alarm_set
            {| se_now := {| ts_sec := 5; ts_nsec := 999999999 |};
               se_calloc := Some 4096; se_register := 0;
               se_settime_ok := true |}
            (UINT64_MAX - 1000000) 77 3
            {| alarm_list := []; handler_registered := false |})))) /\
    addr e = 4096 /\ cb_fn e = 77 /\ cb_arg e = 3 /\
    tv_sec (time e) * 1000000 + tv_usec (time e)
      = 5 * 1000000 + 999999999 / 1000 + (UINT64_MAX - 1000000) /\
    0 <= tv_usec (time e) < 1000000 /\
    usec_sum {| ts_sec := 5; ts_nsec := 999999999 |} (UINT64_MAX - 1000000)
      = 999999999 / 1000 + (UINT64_MAX - 1000000) /\
    999999999 / 1000 + (UINT64_MAX - 1000000) <= UINT64_MAX.
Proof.
  apply (set_deadline_exact
           {| se_now := {| ts_sec := 5; ts_nsec := 999999999 |};
              se_calloc := Some 4096; se_register := 0;
              se_settime_ok := true |}
           (UINT64_MAX - 1000000) 77 3
           {| alarm_list := []; handler_registered := false |} 4096);
    simpl; try reflexivity; unfold INT64_MAX, UINT64_MAX; simpl; lia.
Defined.

(** ** Sorted insertion *)

(** C7. A call that is admitted and gets its record (every successful
    call is one, [set_success_admitted]) links the record between the
    entries whose deadline is not later than its own and the rest of the
    list.  When the list was sorted, the entries behind the record are
    all strictly later, the list stays sorted, and no other cut of the
    old list has these two properties. *)
Theorem set_inserts_in_order (env : set_env) (us fn arg : Z) (st : engine) (a : Z) :
  set_rejects us fn = false ->
  se_calloc env = Some a ->
  let new_alarm := make_alarm a (se_now env) us fn arg in
  let l' := alarm_list (snd (fst (rte_eal_alarm_set env us fn arg st))) in
  exists before after,
    alarm_list st = before ++ after /\
    l' = before ++ new_alarm :: after /\
    Forall (fun x => entry_le x new_alarm) before /\
    (sorted (alarm_list st) ->
       Forall (entry_lt new_alarm) after /\
       sorted l' /\
       forall before' after',
         alarm_list st = before' ++ after' ->
         Forall (fun x => entry_le x new_alarm) before' ->
         Forall (entry_lt new_alarm) after' ->
         before' = before /\ after' = after).
Proof.
  intros R C new_alarm l'. subst l'.
  rewrite (set_admitted env us fn arg st a R C). simpl.
  fold new_alarm.
  destruct (list_insert_split new_alarm (alarm_list st))
    as (before & after & E & I & B & A).
  exists before, after.
  split; [exact E|]. split; [exact I|]. split; [exact B|].
  intros S. rewrite E in S.
  assert (A' : Forall (entry_lt new_alarm) after).
  { apply sorted_after_later; [apply (sorted_app_inv before after S) | exact A]. }
  split; [exact A'|]. split.
  - rewrite I. now apply sorted_insert_middle.
  - intros before' after' E' B' L'. rewrite E in E'. symmetry in E'.
    apply (cut_unique new_alarm before' after' before after E'); assumption.
Qed.

(** An alarm set 1000 us ahead at 11 s + 999500 us falls on the deadline
    of the second pending entry and is linked behind it. *)
Lemma set_inserts_in_order_witness :
  let new_alarm := make_alarm 4224 (se_now env_reg_fails) 1000 fn_f 3 in
  let l' := alarm_list (snd (fst (rte_eal_alarm_set env_reg_fails 1000 fn_f 3
                                    two_pending))) in
  exists before after,
    alarm_list two_pending = before ++ after /\
    l' = before ++ new_alarm :: after /\
    Forall (fun x => entry_le x new_alarm) before /\
    (sorted (alarm_list two_pending) ->
       Forall (entry_lt new_alarm) after /\
       sorted l' /\
       forall before' after',
         alarm_list two_pending = before' ++ after' ->
         Forall (fun x => entry_le x new_alarm) before' ->
         Forall (entry_lt new_alarm) after' ->
         before' = before /\ after' = after).
Proof.
  apply (set_inserts_in_order env_reg_fails 1000 fn_f 3 two_pending 4224);
    reflexivity.
Defined.

Example set_on_equal_deadline :
  alarm_list (snd (fst (rte_eal_alarm_set env_reg_fails 1000 fn_f 3 two_pending)))
  = [entry_at 4096 10 0 fn_g 1; entry_at 4160 12 500 fn_f 2;
     entry_at 4224 12 500 fn_f 3].
Proof. reflexivity. Qed.

(** ** Registration of the handler *)

(** C9. When [rte_intr_callback_register] fails inside an admitted call
    that got its record, the record is still linked into the list,
    [handler_registered] stays false, and the value returned is the one
    a successful registration would have given.  From a state where
    [handler_registered] is false, every later call that is admitted and
    gets its record calls [rte_intr_callback_register] again, and sets
    the flag when that call returns 0. *)
Theorem set_register_failure (env : set_env) (us fn arg : Z) (st : engine) (a : Z) :
  set_rejects us fn = false ->
  se_calloc env = Some a ->
  handler_registered st = false ->
  se_register env <> 0 ->
  let r := rte_eal_alarm_set env us fn arg st in
  let st' := snd (fst r) in
  alarm_list st' = list_insert (make_alarm a (se_now env) us fn arg) (alarm_list st) /\
  In (make_alarm a (se_now env) us fn arg) (alarm_list st') /\
  handler_registered st' = false /\
  In EvRegister (snd r) /\
  (forall reg,
      fst (fst (rte_eal_alarm_set
                  {| se_now := se_now env; se_calloc := se_calloc env;
                     se_register := reg; se_settime_ok := se_settime_ok env |}
                  us fn arg st)) = fst (fst r)) /\
  (forall env2 us2 fn2 arg2 a2,
      set_rejects us2 fn2 = false ->
      se_calloc env2 = Some a2 ->
      let r2 := rte_eal_alarm_set env2 us2 fn2 arg2 st' in
      In EvRegister (snd r2) /\
      handler_registered (snd (fst r2)) = (se_register env2 =? 0)).
Proof.
  intros R C H F r st'. subst st' r.
  rewrite (set_admitted env us fn arg st a R C).
  assert (T : try_register env st = (false, [EvRegister])).
  { unfold try_register. rewrite H. apply Z.eqb_neq in F. now rewrite F. }
  rewrite T. simpl fst. simpl snd.
  split; [reflexivity|]. split; [apply in_list_insert|].
  split; [reflexivity|]. split; [simpl; auto|]. split.
  - intros reg.
    rewrite (set_admitted
               {| se_now := se_now env; se_calloc := se_calloc env;
                  se_register := reg; se_settime_ok := se_settime_ok env |}
               us fn arg st a R C).
    reflexivity.
  - intros env2 us2 fn2 arg2 a2 R2 C2 r2. subst r2.
    rewrite (set_admitted env2 us2 fn2 arg2 _ a2 R2 C2).
    unfold try_register. simpl. auto.
Qed.

(** Registration fails in a first call and is tried again, with success,
    in the next one. *)
Lemma set_register_failure_witness :
  let r := rte_eal_alarm_set env_reg_fails 1000 fn_f 3 two_pending in
  let st' := snd (fst r) in
  alarm_list st' = list_insert (make_alarm 4224 (se_now env_reg_fails) 1000 fn_f 3)
                     (alarm_list two_pending) /\
  In (make_alarm 4224 (se_now env_reg_fails) 1000 fn_f 3) (alarm_list st') /\
  handler_registered st' = false /\
  In EvRegister (snd r) /\
  (forall reg,
      fst (fst (rte_eal_alarm_set
                  {| se_now := se_now env_reg_fails;
                     se_calloc := se_calloc env_reg_fails;
                     se_register := reg;
                     se_settime_ok := se_settime_ok env_reg_fails |}
                  1000 fn_f 3 two_pending)) = fst (fst r)) /\
  (forall env2 us2 fn2 arg2 a2,
      set_rejects us2 fn2 = false ->
      se_calloc env2 = Some a2 ->
      let r2 := rte_eal_alarm_set env2 us2 fn2 arg2 st' in
      In EvRegister (snd r2) /\
      handler_registered (snd (fst r2)) = (se_register env2 =? 0)).
Proof.
  apply (set_register_failure env_reg_fails 1000 fn_f 3 two_pending 4224);
    [reflexivity | reflexivity | reflexivity | discriminate].
Defined.

Example set_retry_registers :
  rte_eal_alarm_set env_reg_ok 5 fn_g 0
    (snd (fst (rte_eal_alarm_set env_reg_fails 1000 fn_f 3 two_pending)))
  = (0,
     {| alarm_list := [entry_at 4096 10 0 fn_g 1; entry_at 4288 11 999505 fn_g 0;
                       entry_at 4160 12 500 fn_f 2; entry_at 4224 12 500 fn_f 3];
        handler_registered := true |},
     [EvLock; EvRegister; EvUnlock]).
Proof. reflexivity. Qed.

(** ** One pass of [rte_eal_alarm_cancel] *)

Section Pass.

Variables self fn arg : Z.

Lemma count_of_cons (p : alarm_entry -> bool) (ap : alarm_entry) (l : alarm_list_t) :
  count_of p (ap :: l) = (if p ap then 1 else 0) + count_of p l.
Proof.
  unfold count_of. simpl. destruct (p ap); simpl length; lia.
Qed.

Lemma count_of_nonneg (p : alarm_entry -> bool) (l : alarm_list_t) :
  0 <= count_of p l.
Proof. unfold count_of. lia. Qed.

Lemma count_of_zero (p : alarm_entry -> bool) (l : alarm_list_t) :
  count_of p l = 0 <-> existsb p l = false.
Proof.
  induction l as [|ap l IH]; [unfold count_of; simpl; tauto|].
  rewrite count_of_cons. cbn [existsb]. pose proof (count_of_nonneg p l).
  destruct (p ap); cbn [orb].
  - split; [intros; exfalso; lia | discriminate].
  - rewrite <- IH. lia.
Qed.

(** The tail sweep removes every removable entry it walks over, counts
    the entries running elsewhere and notes an entry running on the
    caller. *)
Lemma kinds_idle (ap : alarm_entry) :
  matches fn arg ap = true -> (executing ap =? 0) = true ->
  removable fn arg ap = true /\
  running_on_self self fn arg ap = false /\
  running_elsewhere self fn arg ap = false.
Proof.
  intros M X. unfold removable, running_on_self, running_elsewhere.
  rewrite M, X. auto.
Qed.

Lemma kinds_busy (ap : alarm_entry) :
  matches fn arg ap = true -> (executing ap =? 0) = false ->
  removable fn arg ap = false /\
  running_on_self self fn arg ap
    = negb (pthread_equal (executing_id ap) self =? 0) /\
  running_elsewhere self fn arg ap
    = (pthread_equal (executing_id ap) self =? 0).
Proof.
  intros M X. unfold removable, running_on_self, running_elsewhere.
  rewrite M, X. auto.
Qed.

Lemma kinds_other (ap : alarm_entry) :
  matches fn arg ap = false ->
  removable fn arg ap = false /\
  running_on_self self fn arg ap = false /\
  running_elsewhere self fn arg ap = false.
Proof.
  intros M. unfold removable, running_on_self, running_elsewhere.
  rewrite M. auto.
Qed.

Lemma sweep_spec (l : alarm_list_t) :
  forall s,
    fst (sweep self fn arg l s) = survivors fn arg l /\
    count (snd (sweep self fn arg l s)) = count s + count_of (removable fn arg) l /\
    freed (snd (sweep self fn arg l s))
      = freed s ++ map addr (filter (removable fn arg) l) /\
    err (snd (sweep self fn arg l s))
      = (if existsb (running_on_self self fn arg) l then EINPROGRESS else err s) /\
    n_executing (snd (sweep self fn arg l s))
      = n_executing s + count_of (running_elsewhere self fn arg) l.
Proof.
  induction l as [|ap rest IH]; intros s.
  - cbn. rewrite app_nil_r. repeat split; lia.
  - rewrite !count_of_cons. unfold survivors in *.
    cbn [sweep filter existsb map].
    destruct (matches fn arg ap) eqn:M; [destruct (executing ap =? 0) eqn:X|].
    + destruct (kinds_idle ap M X) as (Kr & Ks & Ke). rewrite Kr, Ks, Ke.
      destruct (IH (removed ap s)) as (a & b & c & d & e).
      rewrite a, b, c, d, e.
      cbn [removed count err n_executing freed map negb orb].
      rewrite <- app_assoc. cbn [app].
      repeat split; lia.
    + destruct (kinds_busy ap M X) as (Kr & Ks & Ke). rewrite Kr, Ks, Ke.
      destruct (sweep self fn arg rest (busy self ap s)) as [rest' s'] eqn:W.
      destruct (IH (busy self ap s)) as (a & b & c & d & e).
      rewrite W in a, b, c, d, e. cbn [fst snd negb] in *.
      rewrite a, b, c, d, e. unfold busy.
      destruct (pthread_equal (executing_id ap) self =? 0);
        cbn [count err n_executing freed negb orb].
      * repeat split; lia.
      * repeat split; try lia.
        now destruct (existsb _ rest).
    + destruct (kinds_other ap M) as (Kr & Ks & Ke). rewrite Kr, Ks, Ke.
      destruct (sweep self fn arg rest s) as [rest' s'] eqn:W.
      destruct (IH s) as (a & b & c & d & e).
      rewrite W in a, b, c, d, e. cbn [fst snd negb orb] in *.
      rewrite a, b, c, d, e. repeat split; lia.
Qed.

(** The head drain stops on an empty list or on a head it does not
    remove. *)
Lemma drain_head_stops (l : alarm_list_t) :
  forall s,
    match fst (drain_head self fn arg l s) with
    | [] => True
    | ap :: _ => removable fn arg ap = false
    end.
Proof.
  induction l as [|ap rest IH]; intros s; cbn [drain_head]; [exact I|].
  destruct (matches fn arg ap) eqn:M; [destruct (executing ap =? 0) eqn:X|].
  - apply IH.
  - apply (kinds_busy ap M X).
  - apply (kinds_other ap M).
Qed.

(** Head drain followed by tail sweep, from any values of the locals. *)
Lemma drain_sweep_spec (l : alarm_list_t) :
  forall s,
    let r := sweep self fn arg (fst (drain_head self fn arg l s))
                   (snd (drain_head self fn arg l s)) in
    fst r = survivors fn arg l /\
    count (snd r) = count s + count_of (removable fn arg) l /\
    freed (snd r) = freed s ++ map addr (filter (removable fn arg) l) /\
    err (snd r)
      = (if existsb (running_on_self self fn arg) l then EINPROGRESS else err s) /\
    n_executing s + count_of (running_elsewhere self fn arg) l
      <= n_executing (snd r)
      <= n_executing s + 2 * count_of (running_elsewhere self fn arg) l.
Proof.
  induction l as [|ap rest IH]; intros s r; subst r.
  - cbn. rewrite app_nil_r. repeat split; lia.
  - pose proof (count_of_nonneg (running_elsewhere self fn arg) rest) as P.
    cbn [drain_head].
    destruct (matches fn arg ap) eqn:M; [destruct (executing ap =? 0) eqn:X|].
    + destruct (kinds_idle ap M X) as (Kr & Ks & Ke).
      destruct (IH (removed ap s)) as (a & b & c & d & e).
      rewrite a, b, c, d. rewrite !count_of_cons. unfold survivors.
      cbn [filter existsb map]. rewrite Kr, Ks, Ke.
      cbn [removed count err n_executing freed map negb orb] in *.
      rewrite <- app_assoc. cbn [app].
      repeat split; lia.
    + destruct (kinds_busy ap M X) as (Kr & Ks & Ke).
      cbn [fst snd].
      destruct (sweep_spec (ap :: rest) (busy self ap s)) as (a & b & c & d & e).
      rewrite a, b, c, d, e. rewrite !count_of_cons.
      cbn [existsb]. rewrite Ks, Ke. unfold busy.
      destruct (pthread_equal (executing_id ap) self =? 0);
        cbn [count err n_executing freed negb orb];
        repeat split; lia.
    + cbn [fst snd].
      destruct (sweep_spec (ap :: rest) s) as (a & b & c & d & e).
      rewrite a, b, c, d, e.
      pose proof (count_of_nonneg (running_elsewhere self fn arg) (ap :: rest)).
      repeat split; lia.
Qed.

(** One pass, from the values [cnt] and [er] of [count] and [err]. *)
Lemma cancel_pass_spec (l : alarm_list_t) (cnt er : Z) :
  fst (cancel_pass self fn arg l cnt er) = survivors fn arg l /\
  count (snd (cancel_pass self fn arg l cnt er))
    = cnt + count_of (removable fn arg) l /\
  freed (snd (cancel_pass self fn arg l cnt er))
    = map addr (filter (removable fn arg) l) /\
  err (snd (cancel_pass self fn arg l cnt er))
    = (if existsb (running_on_self self fn arg) l then EINPROGRESS else er) /\
  (n_executing (snd (cancel_pass self fn arg l cnt er)) =? 0)
    = negb (existsb (running_elsewhere self fn arg) l).
Proof.
  unfold cancel_pass.
  pose proof (drain_sweep_spec l
                {| count := cnt; err := er; n_executing := 0; freed := [] |}) as H.
  destruct (drain_head self fn arg l _) as [l1 s1].
  cbn [fst snd count err n_executing freed app] in H.
  destruct H as (a & b & c & d & e).
  repeat split; try assumption.
  pose proof (count_of_nonneg (running_elsewhere self fn arg) l) as P.
  pose proof (count_of_zero (running_elsewhere self fn arg) l) as Z0.
  destruct (existsb (running_elsewhere self fn arg) l); simpl.
  - apply Z.eqb_neq.
    assert (count_of (running_elsewhere self fn arg) l <> 0)
      by (intros F; apply Z0 in F; discriminate).
    lia.
  - apply Z.eqb_eq.
    assert (count_of (running_elsewhere self fn arg) l = 0) by now apply Z0.
    lia.
Qed.

End Pass.

(** ** The retry loop of [rte_eal_alarm_cancel] *)

(** The loop was left: name what it returned. *)
Ltac left_loop :=
  let H := fresh in
  intros H; injection H as <-;
  cbn [le_seen le_list le_count le_err le_trace].

Section Loop.

Variables self fn arg : Z.

(** One turn of the [do ... while] loop in terms of the list it meets. *)
Lemma cancel_loop_unfold (others : list (alarm_list_t -> alarm_list_t))
    (l : alarm_list_t) (cnt er : Z) :
  cancel_loop self fn arg others l cnt er =
    let cnt' := cnt + count_of (removable fn arg) l in
    let er' := if existsb (running_on_self self fn arg) l then EINPROGRESS else er in
    if existsb (running_elsewhere self fn arg) l then
      match others with
      | [] => None
      | step :: others' =>
          match cancel_loop self fn arg others' (step (survivors fn arg l)) cnt' er' with
          | None => None
          | Some x =>
              Some {| le_list := le_list x; le_count := le_count x;
                      le_err := le_err x; le_seen := l :: le_seen x;
                      le_trace := pass_trace fn arg l ++ le_trace x |}
          end
      end
    else Some {| le_list := survivors fn arg l; le_count := cnt'; le_err := er';
                 le_seen := [l]; le_trace := pass_trace fn arg l |}.
Proof.
  destruct (cancel_pass_spec self fn arg l cnt er) as (a & b & c & d & e).
  destruct others as [|step others']; cbn [cancel_loop];
    destruct (cancel_pass self fn arg l cnt er) as [l' s];
    cbn [fst snd] in a, b, c, d, e; rewrite e, negb_involutive, c;
    subst l'; rewrite b, d; reflexivity.
Qed.

(** What a call that leaves the loop has done, pass by pass. *)
Lemma cancel_loop_spec (others : list (alarm_list_t -> alarm_list_t)) :
  forall l cnt er x,
    cancel_loop self fn arg others l cnt er = Some x ->
    hd_error (le_seen x) = Some l /\
    le_list x = survivors fn arg (last (le_seen x) []) /\
    le_count x = cnt + removed_over fn arg (le_seen x) /\
    le_err x = (if existsb (existsb (running_on_self self fn arg)) (le_seen x)
                then EINPROGRESS else er) /\
    le_trace x = flat_map (pass_trace fn arg) (le_seen x) /\
    existsb (running_elsewhere self fn arg) (last (le_seen x) []) = false /\
    Forall (fun s => existsb (running_elsewhere self fn arg) s = true)
           (removelast (le_seen x)) /\
    handed_over fn arg others (le_seen x).
Proof.
  induction others as [|step others' IH]; intros l cnt er x;
    rewrite cancel_loop_unfold; cbv zeta;
    destruct (existsb (running_elsewhere self fn arg) l) eqn:E;
    try discriminate.
  - left_loop.
    cbn [hd_error last removed_over fold_right existsb flat_map removelast
         handed_over].
    rewrite E, app_nil_r, orb_false_r. repeat split; auto; lia.
  - destruct (cancel_loop self fn arg others' _ _ _) as [y|] eqn:L; [|discriminate].
    left_loop.
    destruct (IH _ _ _ _ L) as (a & b & c & d & e & f & g & h).
    destruct (le_seen y) as [|s0 seen'] eqn:S; [discriminate|].
    injection a as ->.
    change (last (l :: step (survivors fn arg l) :: seen') [])
      with (last (step (survivors fn arg l) :: seen') []).
    change (removelast (l :: step (survivors fn arg l) :: seen'))
      with (l :: removelast (step (survivors fn arg l) :: seen')).
    rewrite b, c, d, e.
    cbn [hd_error removed_over fold_right existsb flat_map handed_over] in *.
    repeat split; auto; try lia.
    destruct (existsb (running_on_self self fn arg) l); cbn [orb];
      [now destruct (_ || _) | reflexivity].
  - left_loop.
    cbn [hd_error last removed_over fold_right existsb flat_map removelast
         handed_over].
    rewrite E, app_nil_r, orb_false_r. repeat split; auto; lia.
Qed.

(** A list with no matching entry running elsewhere needs one pass. *)
Lemma cancel_loop_once (others : list (alarm_list_t -> alarm_list_t))
    (l : alarm_list_t) (cnt er : Z) :
  existsb (running_elsewhere self fn arg) l = false ->
  cancel_loop self fn arg others l cnt er =
    Some {| le_list := survivors fn arg l;
            le_count := cnt + count_of (removable fn arg) l;
            le_err := if existsb (running_on_self self fn arg) l
                      then EINPROGRESS else er;
            le_seen := [l]; le_trace := pass_trace fn arg l |}.
Proof.
  intros E. rewrite cancel_loop_unfold. cbv zeta. now rewrite E.
Qed.

End Loop.

(** ** The call as a whole *)

Lemma removable_iff (fn arg : Z) (ap : alarm_entry) :
  removable fn arg ap = true
  <-> cb_fn ap = fn /\ (arg = VOID_MINUS_ONE \/ cb_arg ap = arg) /\ executing ap = 0.
Proof.
  unfold removable, matches.
  rewrite !andb_true_iff, orb_true_iff, !Z.eqb_eq.
  intuition congruence.
Qed.

Lemma running_elsewhere_iff (self fn arg : Z) (ap : alarm_entry) :
  running_elsewhere self fn arg ap = true
  <-> matches fn arg ap = true /\ executing ap <> 0 /\ executing_id ap <> self.
Proof.
  unfold running_elsewhere, pthread_equal.
  rewrite !andb_true_iff, negb_true_iff, Z.eqb_neq.
  destruct (Z.eqb_spec (executing_id ap) self); simpl; intuition congruence.
Qed.

Lemma running_on_self_iff (self fn arg : Z) (ap : alarm_entry) :
  running_on_self self fn arg ap = true
  <-> matches fn arg ap = true /\ executing ap <> 0 /\ executing_id ap = self.
Proof.
  unfold running_on_self, pthread_equal.
  rewrite !andb_true_iff, !negb_true_iff, Z.eqb_neq.
  destruct (Z.eqb_spec (executing_id ap) self); simpl; intuition congruence.
Qed.

(** The entries a pass leaves are those that do not match or whose
    callback is running, in their old order. *)
Lemma in_survivors (fn arg : Z) (l : alarm_list_t) (ap : alarm_entry) :
  In ap (survivors fn arg l)
  <-> In ap l /\ (matches fn arg ap = false \/ executing ap <> 0).
Proof.
  unfold survivors. rewrite filter_In, negb_true_iff.
  unfold removable. rewrite andb_false_iff, Z.eqb_neq. tauto.
Qed.

Lemma nothing_removable (fn arg : Z) (l : alarm_list_t) :
  existsb (removable fn arg) l = false ->
  survivors fn arg l = l /\ filter (removable fn arg) l = [] /\
  count_of (removable fn arg) l = 0.
Proof.
  induction l as [|ap l IH]; [intros _; cbn; auto|].
  cbn [existsb]. rewrite orb_false_iff. intros [A B].
  destruct (IH B) as (I1 & I2 & I3).
  rewrite count_of_cons. unfold survivors in *. cbn [filter].
  rewrite A, I1, I2, I3. cbn. auto.
Qed.

Lemma cancel_non_null (self fn arg : Z)
    (others : list (alarm_list_t -> alarm_list_t)) (errno : Z) (l : alarm_list_t) :
  fn <> NULL ->
  rte_eal_alarm_cancel self fn arg others errno l =
    match cancel_loop self fn arg others l 0 0 with
    | None => None
    | Some x =>
        Some {| cr_ret := le_count x;
                cr_errno := cancel_errno (le_count x) (le_err x) errno;
                cr_list := le_list x; cr_seen := le_seen x;
                cr_trace := le_trace x |}
    end.
Proof.
  intros N. unfold rte_eal_alarm_cancel.
  apply Z.eqb_neq in N. now rewrite N.
Qed.

(** A call that needs no second pass, in full. *)
Lemma cancel_once (self fn arg : Z)
    (others : list (alarm_list_t -> alarm_list_t)) (errno : Z) (l : alarm_list_t) :
  fn <> NULL ->
  existsb (running_elsewhere self fn arg) l = false ->
  rte_eal_alarm_cancel self fn arg others errno l =
    Some {| cr_ret := count_of (removable fn arg) l;
            cr_errno :=
              cancel_errno (count_of (removable fn arg) l)
                (if existsb (running_on_self self fn arg) l then EINPROGRESS else 0)
                errno;
            cr_list := survivors fn arg l;
            cr_seen := [l];
            cr_trace := pass_trace fn arg l |}.
Proof.
  intros N E. rewrite cancel_non_null by exact N.
  rewrite cancel_loop_once by exact E. reflexivity.
Qed.

(** C2. A call with a non-null callback unlinks and frees, in each pass,
    exactly the entries that match the callback and the argument (any
    argument under the wildcard) and are not executing; entries that do
    not match or are executing stay, in their order.  The value returned
    is the number of entries removed over the passes of the call, the
    first pass being on the list the call was given and each later pass
    on what its predecessor left, as changed by the other threads in
    between.  When no matching entry is running on another thread the
    call is a single pass. *)
Theorem cancel_removes_idle_matches (self fn arg : Z)
    (others : list (alarm_list_t -> alarm_list_t)) (errno : Z) (l : alarm_list_t) :
  fn <> NULL ->
  (forall cnt er,
      fst (cancel_pass self fn arg l cnt er) = survivors fn arg l /\
      count (snd (cancel_pass self fn arg l cnt er))
        = cnt + count_of (removable fn arg) l /\
      freed (snd (cancel_pass self fn arg l cnt er))
        = map addr (filter (removable fn arg) l)) /\
  (forall ap,
      (In ap (filter (removable fn arg) l)
       <-> In ap l /\ cb_fn ap = fn /\
           (arg = VOID_MINUS_ONE \/ cb_arg ap = arg) /\ executing ap = 0) /\
      (In ap (survivors fn arg l)
       <-> In ap l /\ (matches fn arg ap = false \/ executing ap <> 0))) /\
  (forall r,
      rte_eal_alarm_cancel self fn arg others errno l = Some r ->
      hd_error (cr_seen r) = Some l /\
      cr_ret r = removed_over fn arg (cr_seen r) /\
      handed_over fn arg others (cr_seen r) /\
      cr_list r = survivors fn arg (last (cr_seen r) []) /\
      cr_trace r = flat_map (pass_trace fn arg) (cr_seen r)) /\
  (existsb (running_elsewhere self fn arg) l = false ->
   exists r,
     rte_eal_alarm_cancel self fn arg others errno l = Some r /\
     cr_ret r = count_of (removable fn arg) l /\
     cr_list r = survivors fn arg l /\
     cr_seen r = [l] /\
     cr_trace r = pass_trace fn arg l).
Proof.
  intros N. split; [|split; [|split]].
  - intros cnt er.
    destruct (cancel_pass_spec self fn arg l cnt er) as (a & b & c & _).
    auto.
  - intros ap. split; [|apply in_survivors].
    rewrite filter_In, removable_iff. tauto.
  - intros r. rewrite cancel_non_null by exact N.
    destruct (cancel_loop self fn arg others l 0 0) as [x|] eqn:L; [|discriminate].
    intros H. injection H as <-. cbn [cr_seen cr_ret cr_list cr_trace].
    destruct (cancel_loop_spec self fn arg others l 0 0 x L)
      as (a & b & c & d & e & _ & _ & h).
    repeat split; auto.
  - intros E. rewrite (cancel_once self fn arg others errno l N E).
    eexists. split; [reflexivity|]. cbn. auto.
Qed.

(** Scenario 3: the wildcard cancel of [fn_f] removes its two alarms. *)
Lemma cancel_removes_idle_matches_witness :
  exists r,
    rte_eal_alarm_cancel tid_worker fn_f VOID_MINUS_ONE [] 0 three_idle = Some r /\
    cr_ret r = count_of (removable fn_f VOID_MINUS_ONE) three_idle /\
    cr_list r = survivors fn_f VOID_MINUS_ONE three_idle /\
    cr_seen r = [three_idle] /\
    cr_trace r = pass_trace fn_f VOID_MINUS_ONE three_idle.
Proof.
  apply (cancel_removes_idle_matches tid_worker fn_f VOID_MINUS_ONE [] 0 three_idle);
    [discriminate | reflexivity].
Defined.

Example cancel_wildcard_scenario :
  rte_eal_alarm_cancel tid_worker fn_f VOID_MINUS_ONE [] 0 three_idle
  = Some {| cr_ret := 2; cr_errno := 0;
            cr_list := [entry_at 4224 20 0 fn_g 13];
            cr_seen := [three_idle];
            cr_trace := [EvLock; EvFree 4096; EvFree 4160; EvUnlock] |}.
Proof. reflexivity. Qed.

(** ** A call that removes nothing *)

Lemma removed_over_nonneg (fn arg : Z) (seen : list alarm_list_t) :
  0 <= removed_over fn arg seen.
Proof.
  induction seen as [|l seen IH]; cbn [removed_over fold_right]; [lia|].
  pose proof (count_of_nonneg (removable fn arg) l).
  unfold removed_over in IH. lia.
Qed.

(** The specification has such a call return -1.  On an empty list
    [rte_eal_alarm_cancel] returns its count, 0, with [ENOENT]. *)
Lemma cancel_empty_returns_zero :
  exists r,
    rte_eal_alarm_cancel tid_worker fn_f 1 [] 0 [] = Some r /\
    cr_list r = [] /\ cr_errno r = ENOENT /\ cr_ret r = 0 /\ cr_ret r <> -1.
Proof.
  eexists. split; [reflexivity|]. cbn. repeat split; discriminate.
Qed.

(** C1, amended. A call with a non-null callback returns its count, never
    -1.  When it removed nothing it returns 0 and leaves in [rte_errno]
    [EINPROGRESS] if some pass met a matching entry executing on the
    calling thread, and [ENOENT] otherwise; on a list with no matching
    entry at all (the empty list is one) that is 0 with [ENOENT], the
    list untouched. *)
Theorem cancel_nothing_removed (self fn arg : Z)
    (others : list (alarm_list_t -> alarm_list_t)) (errno : Z) (l : alarm_list_t) :
  fn <> NULL ->
  (forall r,
      rte_eal_alarm_cancel self fn arg others errno l = Some r ->
      0 <= cr_ret r /\
      (removed_over fn arg (cr_seen r) = 0 ->
       cr_ret r = 0 /\
       cr_errno r =
         if existsb (existsb (running_on_self self fn arg)) (cr_seen r)
         then EINPROGRESS else ENOENT)) /\
  (existsb (removable fn arg) l = false ->
   existsb (running_elsewhere self fn arg) l = false ->
   rte_eal_alarm_cancel self fn arg others errno l =
     Some {| cr_ret := 0;
             cr_errno := if existsb (running_on_self self fn arg) l
                         then EINPROGRESS else ENOENT;
             cr_list := l; cr_seen := [l];
             cr_trace := [EvLock; EvUnlock] |}).
Proof.
  intros N. split.
  - intros r. rewrite cancel_non_null by exact N.
    destruct (cancel_loop self fn arg others l 0 0) as [x|] eqn:L; [|discriminate].
    intros H. injection H as <-. cbn [cr_seen cr_ret cr_errno].
    destruct (cancel_loop_spec self fn arg others l 0 0 x L)
      as (_ & _ & c & d & _).
    pose proof (removed_over_nonneg fn arg (le_seen x)).
    split; [lia|]. intros Z0. rewrite c, d, Z0.
    split; [reflexivity|].
    destruct (existsb (existsb (running_on_self self fn arg)) (le_seen x));
      reflexivity.
  - intros R E. rewrite (cancel_once self fn arg others errno l N E).
    destruct (nothing_removable fn arg l R) as (S1 & S2 & S3).
    unfold pass_trace. rewrite S1, S2, S3. cbn [map app].
    destruct (existsb (running_on_self self fn arg) l); reflexivity.
Qed.

(** A callback run by the dispatch thread cancels itself while it is the
    only alarm of its kind: 0 is returned, with [EINPROGRESS]. *)
Lemma cancel_nothing_removed_witness :
  rte_eal_alarm_cancel tid_dispatch fn_f 1 [] 0 only_running =
    Some {| cr_ret := 0;
            cr_errno := if existsb (running_on_self tid_dispatch fn_f 1) only_running
                        then EINPROGRESS else ENOENT;
            cr_list := only_running; cr_seen := [only_running];
            cr_trace := [EvLock; EvUnlock] |}.
Proof.
  apply (cancel_nothing_removed tid_dispatch fn_f 1 [] 0 only_running);
    [discriminate | reflexivity | reflexivity].
Defined.

(** Scenario 5: a worker cancels an alarm whose callback is running on
    the dispatch thread.  The first pass spins; once dispatch has
    unlinked the entry the second pass finds nothing: 0 and [ENOENT]. *)
Example cancel_cross_thread_scenario :
  rte_eal_alarm_cancel tid_worker fn_f 1 [dispatch_finishes] 0 only_running
  = Some {| cr_ret := 0; cr_errno := ENOENT;
            cr_list := [entry_at 4224 13 0 fn_g 3];
            cr_seen := [only_running; [entry_at 4224 13 0 fn_g 3]];
            cr_trace := [EvLock; EvUnlock; EvLock; EvUnlock] |}.
Proof. reflexivity. Qed.

(** ** Self-cancel *)

Lemma elsewhere_exists (self fn arg : Z) (l : alarm_list_t) :
  existsb (running_elsewhere self fn arg) l = true
  <-> exists ap, In ap l /\ matches fn arg ap = true /\
                 executing ap <> 0 /\ executing_id ap <> self.
Proof.
  rewrite existsb_exists.
  split; intros (ap & I & H); exists ap; (split; [exact I|]);
    now apply running_elsewhere_iff.
Qed.

Lemma on_self_exists (self fn arg : Z) (l : alarm_list_t) :
  existsb (running_on_self self fn arg) l = true
  <-> exists ap, In ap l /\ matches fn arg ap = true /\
                 executing ap <> 0 /\ executing_id ap = self.
Proof.
  rewrite existsb_exists.
  split; intros (ap & I & H); exists ap; (split; [exact I|]);
    now apply running_on_self_iff.
Qed.

(** C8. The loop goes round again exactly when the pass met a matching
    entry executing on a thread other than the caller; so every pass of
    a call but the last met one, and the last met none.  If some
    matching entry is executing and every such entry is executed by the
    caller, the call makes one pass and returns with [rte_errno] set to
    [EINPROGRESS]. *)
Theorem cancel_self_single_pass (self fn arg : Z)
    (others : list (alarm_list_t -> alarm_list_t)) (errno : Z) (l : alarm_list_t) :
  fn <> NULL ->
  (forall cnt er,
      n_executing (snd (cancel_pass self fn arg l cnt er)) <> 0
      <-> exists ap, In ap l /\ matches fn arg ap = true /\
                     executing ap <> 0 /\ executing_id ap <> self) /\
  (forall r,
      rte_eal_alarm_cancel self fn arg others errno l = Some r ->
      Forall (fun s => existsb (running_elsewhere self fn arg) s = true)
             (removelast (cr_seen r)) /\
      existsb (running_elsewhere self fn arg) (last (cr_seen r) []) = false) /\
  ((exists ap, In ap l /\ matches fn arg ap = true /\ executing ap <> 0) ->
   (forall ap, In ap l -> matches fn arg ap = true -> executing ap <> 0 ->
               executing_id ap = self) ->
   exists r,
     rte_eal_alarm_cancel self fn arg others errno l = Some r /\
     cr_seen r = [l] /\
     cr_trace r = pass_trace fn arg l /\
     cr_errno r = EINPROGRESS).
Proof.
  intros N. split; [|split].
  - intros cnt er.
    destruct (cancel_pass_spec self fn arg l cnt er) as (_ & _ & _ & _ & e).
    rewrite <- elsewhere_exists. rewrite <- Z.eqb_neq, e.
    destruct (existsb (running_elsewhere self fn arg) l); simpl; intuition congruence.
  - intros r. rewrite cancel_non_null by exact N.
    destruct (cancel_loop self fn arg others l 0 0) as [x|] eqn:L; [|discriminate].
    intros H. injection H as <-. cbn [cr_seen].
    destruct (cancel_loop_spec self fn arg others l 0 0 x L)
      as (_ & _ & _ & _ & _ & f & g & _).
    auto.
  - intros (ap & I & M & X) A.
    assert (E : existsb (running_elsewhere self fn arg) l = false).
    { destruct (existsb (running_elsewhere self fn arg) l) eqn:E; [|reflexivity].
      apply elsewhere_exists in E. destruct E as (bp & I' & M' & X' & D).
      elim D. now apply A. }
    assert (S : existsb (running_on_self self fn arg) l = true).
    { apply on_self_exists. exists ap. repeat split; auto. }
    rewrite (cancel_once self fn arg others errno l N E).
    eexists. split; [reflexivity|]. cbn [cr_seen cr_trace cr_errno].
    rewrite S. repeat split.
    unfold cancel_errno. rewrite andb_false_r. reflexivity.
Qed.

(** Scenario 6: the running callback of [fn_f] cancels every alarm of
    [fn_f]; one pass, [EINPROGRESS]. *)
Lemma cancel_self_single_pass_witness :
  exists r,
    rte_eal_alarm_cancel tid_dispatch fn_f VOID_MINUS_ONE [dispatch_finishes] 0
      head_running = Some r /\
    cr_seen r = [head_running] /\
    cr_trace r = pass_trace fn_f VOID_MINUS_ONE head_running /\
    cr_errno r = EINPROGRESS.
Proof.
  apply (cancel_self_single_pass tid_dispatch fn_f VOID_MINUS_ONE
           [dispatch_finishes] 0 head_running).
  - discriminate.
  - exists (running_at 4096 10 0 fn_f 1 tid_dispatch).
    split; [left; reflexivity|]. split; [reflexivity | discriminate].
  - intros ap [<-|[<-|[<-|[]]]]; intros M X;
      [reflexivity | now elim X | discriminate M].
Defined.

Example cancel_self_scenario :
  rte_eal_alarm_cancel tid_dispatch fn_f VOID_MINUS_ONE [dispatch_finishes] 0
    head_running
  = Some {| cr_ret := 1; cr_errno := EINPROGRESS;
            cr_list := [running_at 4096 10 0 fn_f 1 tid_dispatch;
                        entry_at 4224 13 0 fn_g 3];
            cr_seen := [head_running];
            cr_trace := [EvLock; EvFree 4160; EvUnlock] |}.
Proof. reflexivity. Qed.

(** ** The wildcard argument *)

(** C10. With argument [(void * )-1] the match is on the callback alone:
    a pass removes every idle entry of that callback whatever argument it
    was set with, and so does a whole call.  An alarm that was set with
    the argument [(void * )-1] can only be cancelled that way: a cancel
    naming its callback and its argument matches every alarm of the
    callback. *)
Theorem cancel_minus_one_matches_all :
  (forall fn ap, matches fn VOID_MINUS_ONE ap = (fn =? cb_fn ap)) /\
  (forall self fn l cnt er,
      fst (cancel_pass self fn VOID_MINUS_ONE l cnt er)
      = filter (fun ap => negb ((fn =? cb_fn ap) && (executing ap =? 0))) l /\
      count (snd (cancel_pass self fn VOID_MINUS_ONE l cnt er))
      = cnt + count_of (fun ap => (fn =? cb_fn ap) && (executing ap =? 0)) l) /\
  (forall self fn others errno l r,
      fn <> NULL ->
      rte_eal_alarm_cancel self fn VOID_MINUS_ONE others errno l = Some r ->
      cr_list r
      = filter (fun ap => negb ((fn =? cb_fn ap) && (executing ap =? 0)))
               (last (cr_seen r) [])) /\
  (forall ap other,
      cb_arg ap = VOID_MINUS_ONE -> cb_fn other = cb_fn ap ->
      matches (cb_fn ap) (cb_arg ap) other = true).
Proof.
  assert (M : forall fn ap, matches fn VOID_MINUS_ONE ap = (fn =? cb_fn ap)).
  { intros fn ap. unfold matches. rewrite Z.eqb_refl. cbn [orb].
    apply andb_true_r. }
  assert (F : forall fn (p : bool -> bool) l,
             filter (fun ap => p (removable fn VOID_MINUS_ONE ap)) l
             = filter (fun ap => p ((fn =? cb_fn ap) && (executing ap =? 0))) l).
  { intros fn p l. apply filter_ext. intros ap. unfold removable. now rewrite M. }
  assert (G : forall fn l,
             filter (removable fn VOID_MINUS_ONE) l
             = filter (fun ap => (fn =? cb_fn ap) && (executing ap =? 0)) l).
  { intros fn l. apply filter_ext. intros ap. unfold removable. now rewrite M. }
  split; [exact M|]. split; [|split].
  - intros self fn l cnt er.
    destruct (cancel_pass_spec self fn VOID_MINUS_ONE l cnt er) as (a & b & _).
    rewrite a, b. unfold survivors, count_of.
    rewrite (F fn negb l), (G fn l). auto.
  - intros self fn others errno l r N.
    rewrite cancel_non_null by exact N.
    destruct (cancel_loop self fn VOID_MINUS_ONE others l 0 0) as [x|] eqn:L;
      [|discriminate].
    intros H. injection H as <-. cbn [cr_list cr_seen].
    destruct (cancel_loop_spec self fn VOID_MINUS_ONE others l 0 0 x L)
      as (_ & b & _).
    rewrite b. unfold survivors. apply (F fn negb).
  - intros ap other A C. unfold matches.
    rewrite C, A, !Z.eqb_refl. reflexivity.
Qed.

(** An alarm set with the argument [(void * )-1]: cancelling it by its own
    argument also removes the alarm of the same callback set with 12. *)
Example cancel_minus_one_as_argument :
  rte_eal_alarm_cancel tid_worker fn_f VOID_MINUS_ONE [] 0
    [entry_at 4096 20 0 fn_f VOID_MINUS_ONE; entry_at 4160 20 0 fn_f 12;
     entry_at 4224 20 0 fn_g VOID_MINUS_ONE]
  = Some {| cr_ret := 2; cr_errno := 0;
            cr_list := [entry_at 4224 20 0 fn_g VOID_MINUS_ONE];
            cr_seen := [[entry_at 4096 20 0 fn_f VOID_MINUS_ONE;
                         entry_at 4160 20 0 fn_f 12;
                         entry_at 4224 20 0 fn_g VOID_MINUS_ONE]];
            cr_trace := [EvLock; EvFree 4096; EvFree 4160; EvUnlock] |}.
Proof. reflexivity. Qed.

(** ** The dispatch loop *)

Section Dispatch.

Variable self : Z.

Lemma mark_executing_time (ap : alarm_entry) :
  time (mark_executing self ap) = time ap.
Proof. reflexivity. Qed.

(** An entry not later than a due entry is due. *)
Lemma due_earlier (a b : alarm_entry) (now : timespec) :
  entry_le a b -> due b now = true -> due a now = true.
Proof.
  unfold entry_le, timeval_le, due. change NS_PER_US with 1000.
  rewrite !orb_true_iff, !andb_true_iff, !Z.ltb_lt, !Z.eqb_eq, !Z.leb_le. lia.
Qed.

(** The calls the loop makes, the entries it shows as executing, the
    list and the clock reading it ends on. *)
Lemma drain_due_spec (ws : list window) :
  forall now l x,
    drain_due self ws now l = Some x ->
    dx_trace x = flat_map fire_trace (dx_fired x) /\
    Forall2 (fun ap w => w_clock w = 0 /\ due ap (w_now w) = true)
            (dx_fired x) (firstn (length (dx_fired x)) ws) /\
    Forall2 (fun ap shown => hd_error shown = Some (mark_executing self ap))
            (dx_fired x) (dx_shown x) /\
    hd_error (dx_fired x ++ dx_list x) = hd_error l /\
    dx_list x = after_turns self ws (length (dx_fired x)) l /\
    (match dx_list x with
     | [] => True
     | ap :: _ =>
         exists w,
           nth_error ws (length (dx_fired x)) = Some w /\
           (w_clock w = 0 -> dx_now x = w_now w /\ due ap (w_now w) = false) /\
           (w_clock w <> 0 ->
            dx_now x = now_after ws (length (dx_fired x)) now)
     end).
Proof.
  induction ws as [|w ws IH]; intros now l x; destruct l as [|ap rest];
    cbn [drain_due]; try discriminate.
  - intros H. injection H as <-. cbn. repeat split; auto.
  - intros H. injection H as <-. cbn. repeat split; auto.
  - destruct (Z.eqb_spec (w_clock w) 0) as [C|C];
      [destruct (due ap (w_now w)) eqn:D|].
    + destruct (drain_due self ws (w_now w) _) as [y|] eqn:R; [|discriminate].
      intros H. injection H as <-.
      cbn [dx_trace dx_fired dx_shown dx_list dx_now].
      destruct (IH _ _ _ R) as (a & b & c & d & e & f).
      cbn [flat_map length firstn app hd_error after_turns nth_error now_after].
      rewrite a. repeat split; auto.
    + intros H. injection H as <-.
      cbn [dx_trace dx_fired dx_shown dx_list dx_now flat_map length firstn app
           hd_error after_turns nth_error now_after].
      repeat (split; [auto|]).
      exists w. split; [reflexivity|].
      split; [intros _; auto | intros F; now elim F].
    + intros H. injection H as <-.
      cbn [dx_trace dx_fired dx_shown dx_list dx_now flat_map length firstn app
           hd_error after_turns nth_error now_after].
      repeat (split; [auto|]).
      exists w. split; [reflexivity|].
      split; [intros F; now elim C | intros _; reflexivity].
Qed.







End Dispatch.

(** ** The windows the API itself can produce *)

Lemma list_insert_sorted (new_alarm : alarm_entry) (l : alarm_list_t) :
  sorted l -> sorted (list_insert new_alarm l).
Proof.
  intros S.
  destruct (list_insert_split new_alarm l) as (before & after & E & I & B & A).
  rewrite I. rewrite E in S.
  apply sorted_insert_middle; [exact S | exact B |].
  apply sorted_after_later; [apply (sorted_app_inv before after S) | exact A].
Qed.

Lemma survivors_sorted (fn arg : Z) (l : alarm_list_t) :
  sorted l -> sorted (survivors fn arg l).
Proof.
  intros S. apply Sorted_StronglySorted in S; [|exact entry_le_trans].
  apply StronglySorted_Sorted. unfold survivors.
  induction S as [|a l S IH F]; cbn [filter]; [constructor|].
  destruct (negb (removable fn arg a)); [|exact IH].
  constructor; [exact IH|].
  rewrite Forall_forall in *. intros x Hx. apply F.
  now apply filter_In in Hx.
Qed.

(** A pass of [rte_eal_alarm_cancel], by any thread and for any callback,
    leaves the executing head where it is and the list sorted. *)
Lemma cancel_window_keeps_head (self tid fn arg : Z) (t : timespec) :
  keeps_head self
    {| w_clock := 0; w_now := t;
       w_during := fun l => fst (cancel_pass tid fn arg l 0 0) |}.
Proof.
  intros ap rest X _ S. cbn [w_during].
  destruct (cancel_pass_spec tid fn arg (ap :: rest) 0 0) as (a & _).
  rewrite a. pose proof (survivors_sorted fn arg _ S) as S'.
  unfold survivors in *. cbn [filter] in *.
  assert (R : removable fn arg ap = false).
  { unfold removable. rewrite X. cbn. apply andb_false_r. }
  rewrite R in *. cbn [negb] in *. eexists; split; [reflexivity | exact S'].
Qed.





(** ** [eal_alarm_callback] *)

Lemma sorted_none_due (now : timespec) (ap : alarm_entry) (rest : alarm_list_t) :
  sorted (ap :: rest) -> due ap now = false ->
  Forall (fun x => due x now = false) (ap :: rest).
Proof.
  intros S D. constructor; [exact D|].
  apply sorted_all_le in S.
  eapply Forall_impl; [|exact S].
  intros b L. destruct (due b now) eqn:B; [|reflexivity].
  rewrite (due_earlier ap b now L B) in D. discriminate.
Qed.




(** Scenario 1 at 25 ms: the alarms of 10 ms and 20 ms fire in that
    order, the alarm of 30 ms stays and the timer is set 5 ms ahead. *)
Example dispatch_ordered_firing :
  eal_alarm_callback tid_dispatch [quiet_at at_25ms; quiet_at at_25ms; quiet_at at_25ms]
    {| ts_sec := 0; ts_nsec := 0 |} three_sorted
  = Some {| dx_list := [entry_at 4096 0 30000 fn_f 1];
            dx_now := at_25ms;
            dx_fired := [entry_at 4160 0 10000 fn_f 2; entry_at 4224 0 20000 fn_f 3];
            dx_shown :=
              [[running_at 4160 0 10000 fn_f 2 tid_dispatch;
                entry_at 4224 0 20000 fn_f 3; entry_at 4096 0 30000 fn_f 1];
               [running_at 4224 0 20000 fn_f 3 tid_dispatch;
                entry_at 4096 0 30000 fn_f 1]];
            dx_trace :=
              [EvLock;
               EvUnlock; EvCall fn_f 2; EvLock; EvFree 4160;
               EvUnlock; EvCall fn_f 3; EvLock; EvFree 4224;
               EvSettime {| it_interval := {| ts_sec := 0; ts_nsec := 0 |};
                            it_value := {| ts_sec := 0; ts_nsec := 5000000 |} |};
               EvUnlock] |}.
Proof. reflexivity. Qed.

(** The first callback cancels its siblings from inside: they are
    unlinked by the cancel, the running entry by dispatch. *)
Example dispatch_self_cancel :
  eal_alarm_callback tid_dispatch [self_cancel_at at_25ms]
    {| ts_sec := 0; ts_nsec := 0 |} three_sorted
  = Some {| dx_list := [];
            dx_now := at_25ms;
            dx_fired := [entry_at 4160 0 10000 fn_f 2];
            dx_shown :=
              [[running_at 4160 0 10000 fn_f 2 tid_dispatch;
                entry_at 4224 0 20000 fn_f 3; entry_at 4096 0 30000 fn_f 1]];
            dx_trace :=
              [EvLock; EvUnlock; EvCall fn_f 2; EvLock; EvFree 4160; EvUnlock] |}.
Proof. reflexivity. Qed.

(** ** The interval written by dispatch *)






(** A deadline of 12 s + 500 us read at 10 s + 999999999 ns: the
    subtraction borrows a second. *)
Example next_expiry_borrows :
  next_expiry (entry_at 4160 12 500 fn_f 2) {| ts_sec := 10; ts_nsec := 999999999 |}
  = {| it_interval := {| ts_sec := 0; ts_nsec := 0 |};
       it_value := {| ts_sec := 1; ts_nsec := 500001 |} |}.
Proof. reflexivity. Qed.

(** ** Scenario 1, end to end *)

(** [set(30000, f, 1)], [set(10000, f, 2)], [set(20000, f, 3)] on a fresh
    engine: the list is in deadline order, the handler is registered by
    the first call, and the timer is programmed by the first two. *)
Example scenario_ordered_sets :
  let '(r1, st1, tr1) := rte_eal_alarm_set (env_at_zero 4096) 30000 fn_f 1 engine_init in
  let '(r2, st2, tr2) := rte_eal_alarm_set (env_at_zero 4160) 10000 fn_f 2 st1 in
  let '(r3, st3, tr3) := rte_eal_alarm_set (env_at_zero 4224) 20000 fn_f 3 st2 in
  (r1, r2, r3) = (0, 0, 0) /\
  st3 = {| alarm_list := three_sorted; handler_registered := true |} /\
  tr1 = [EvLock; EvRegister; EvSettime (set_itimer 30000); EvUnlock] /\
  tr2 = [EvLock; EvSettime (set_itimer 10000); EvUnlock] /\
  tr3 = [EvLock; EvUnlock].
Proof. cbn. repeat split; reflexivity. Qed.

(** * Further properties of the code *)

(** ** Return values and effects of [rte_eal_alarm_set] *)

Lemma length_list_insert (new_alarm : alarm_entry) (l : alarm_list_t) :
  length (list_insert new_alarm l) = S (length l).
Proof.
  destruct (list_insert_split new_alarm l) as (before & after & E & I & _).
  rewrite I, E, !length_app. cbn [length]. lia.
Qed.

(** The three ways a call can go. *)
Lemma set_cases (env : set_env) (us fn arg : Z) (st : engine) :
  (set_rejects us fn = true /\
   rte_eal_alarm_set env us fn arg st = (- EINVAL, st, []))
  \/ (set_rejects us fn = false /\ se_calloc env = None /\
      rte_eal_alarm_set env us fn arg st = (- ENOMEM, st, []))
  \/ (exists a,
        set_rejects us fn = false /\ se_calloc env = Some a /\
        let l := list_insert (make_alarm a (se_now env) us fn arg) (alarm_list st) in
        rte_eal_alarm_set env us fn arg st =
          (if first_is a l then settime_ret (se_settime_ok env) else 0,
           {| alarm_list := l; handler_registered := fst (try_register env st) |},
           [EvLock] ++ snd (try_register env st)
             ++ (if first_is a l then [EvSettime (set_itimer us)] else [])
             ++ [EvUnlock])).
Proof.
  destruct (set_rejects us fn) eqn:R.
  - left. unfold rte_eal_alarm_set. now rewrite R.
  - destruct (se_calloc env) as [a|] eqn:C.
    + right. right. exists a. split; [reflexivity|]. split; [reflexivity|].
      apply (set_admitted env us fn arg st a R C).
    + right. left. unfold rte_eal_alarm_set. now rewrite R, C.
Qed.

(** X1. [rte_eal_alarm_set] returns [-ENOMEM] exactly when the
    parameters pass the check of line 139 and [calloc] returns NULL; the
    call then leaves the list and [handler_registered] as they were,
    never takes the lock and calls neither the registration nor the
    timer. *)
Theorem set_enomem_iff (env : set_env) (us fn arg : Z) (st : engine) :
  (fst (fst (rte_eal_alarm_set env us fn arg st)) = - ENOMEM
   <-> set_rejects us fn = false /\ se_calloc env = None)
  /\ (fst (fst (rte_eal_alarm_set env us fn arg st)) = - ENOMEM ->
      rte_eal_alarm_set env us fn arg st = (- ENOMEM, st, [])).
Proof.
  destruct (set_cases env us fn arg st)
    as [(R & E) | [(R & C & E) | (a & R & C & E)]]; rewrite E; cbn [fst snd].
  - split; [split; [discriminate | intros [H _]; congruence] | discriminate].
  - split; [split; auto | auto].
  - assert (N : forall b : bool,
               (if b then settime_ret (se_settime_ok env) else 0) <> - ENOMEM).
    { intros [|]; [destruct (se_settime_ok env)|]; discriminate. }
    split; [split; [intros H; now apply N in H | intros [_ H]; congruence]
           | intros H; now apply N in H].
Qed.

(** X2. A call that passed the parameter check and got its record
    returns 0 or -1, and -1 exactly when the record became the first of
    the list and [timerfd_settime] failed.  Whatever it returns, the
    record is linked and the list is one entry longer: a timer that
    could not be programmed does not take the alarm back. *)
Theorem set_links_whatever_timer (env : set_env) (us fn arg : Z) (st : engine)
    (a : Z) :
  set_rejects us fn = false ->
  se_calloc env = Some a ->
  let r := rte_eal_alarm_set env us fn arg st in
  let l' := alarm_list (snd (fst r)) in
  In (make_alarm a (se_now env) us fn arg) l' /\
  length l' = S (length (alarm_list st)) /\
  (fst (fst r) = 0 \/ fst (fst r) = -1) /\
  (fst (fst r) = -1 <-> first_is a l' = true /\ se_settime_ok env = false).
Proof.
  intros R C r l'. subst l' r.
  rewrite (set_admitted env us fn arg st a R C). cbn [fst snd alarm_list].
  split; [apply in_list_insert|]. split; [apply length_list_insert|].
  destruct (first_is a _); destruct (se_settime_ok env); cbn [settime_ret];
    (split; [auto|]);
    (split; [intros H; try discriminate H; auto
            | intros [H1 H2]; try discriminate; reflexivity]).
Qed.

(** The timer fails while the new alarm is the earliest: -1, and the
    alarm is in the list. *)
Lemma set_links_whatever_timer_witness :
  let env := {| se_now := {| ts_sec := 0; ts_nsec := 0 |};
                se_calloc := Some 4352; se_register := 0;
                se_settime_ok := false |} in
  let r := rte_eal_alarm_set env 5 fn_g 0 two_pending in
  let l' := alarm_list (snd (fst r)) in
  In (make_alarm 4352 (se_now env) 5 fn_g 0) l' /\
  length l' = S (length (alarm_list two_pending)) /\
  (fst (fst r) = 0 \/ fst (fst r) = -1) /\
  (fst (fst r) = -1 <-> first_is 4352 l' = true /\ se_settime_ok env = false).
Proof.
  apply (set_links_whatever_timer
           {| se_now := {| ts_sec := 0; ts_nsec := 0 |};
              se_calloc := Some 4352; se_register := 0;
              se_settime_ok := false |} 5 fn_g 0 two_pending 4352);
    reflexivity.
Defined.

(** ** When [rte_eal_alarm_set] programs the timer *)

Lemma first_is_insert (new_alarm : alarm_entry) (l : alarm_list_t) :
  ~ In (addr new_alarm) (map addr l) ->
  first_is (addr new_alarm) (list_insert new_alarm l) = true
  <-> l = [] \/ exists ap rest, l = ap :: rest /\ entry_lt new_alarm ap.
Proof.
  intros F. destruct l as [|ap rest].
  - cbn. rewrite Z.eqb_refl. tauto.
  - cbn [list_insert].
    assert (D : addr ap <> addr new_alarm).
    { intros E. apply F. left. exact E. }
    destruct (timeval_gt (time ap) (time new_alarm)) eqn:G.
    + assert (I : insert_foreach new_alarm ap rest = new_alarm :: ap :: rest)
        by (destruct rest; cbn [insert_foreach]; now rewrite G).
      rewrite I. cbn [first_is]. rewrite Z.eqb_refl.
      split; [|reflexivity]. intros _. right. exists ap, rest.
      split; [reflexivity|]. now apply timeval_gt_true.
    + assert (I : first_is (addr new_alarm) (insert_foreach new_alarm ap rest)
                  = (addr ap =? addr new_alarm))
        by (destruct rest; cbn [insert_foreach]; now rewrite G).
      rewrite I. apply Z.eqb_neq in D. rewrite D.
      split; [discriminate|].
      intros [E | (ap' & rest' & E & L)]; [discriminate|].
      injection E as <- <-. apply timeval_gt_false in G.
      now apply timeval_lt_not_le in L.
Qed.

Lemma set_itimer_exact (us : Z) :
  1 <= us <= UINT64_MAX - 1000000 ->
  timespec_ns (it_value (set_itimer us)) = us * 1000 /\
  0 <= ts_nsec (it_value (set_itimer us)) < 1000000000 /\
  0 <= ts_sec (it_value (set_itimer us)).
Proof.
  intros U. unfold set_itimer, timespec_ns. cbn [it_value ts_sec ts_nsec].
  change US_PER_S with 1000000. change NS_PER_US with 1000.
  unfold UINT64_MAX in U.
  assert (M : 0 <= us mod 1000000 < 1000000) by (apply Z.mod_pos_bound; lia).
  assert (Q0 : 0 <= us / 1000000) by (apply Z.div_pos; lia).
  assert (Q1 : us / 1000000 < 2 ^ 63)
    by (apply Z.div_lt_upper_bound; lia).
  rewrite (wrap64_small (us mod 1000000 * 1000)) by lia.
  rewrite !to_int64_small by lia.
  pose proof (Z.div_mod us 1000000). lia.
Qed.

(** X3. A call that is admitted and gets a record at an address no
    pending entry has programs the timer exactly when the list was empty
    or the new deadline is strictly earlier than the deadline of the old
    first entry; a deadline equal to the first one leaves the timer
    alone.  The time it programs is the delay [us] itself, as seconds
    and nanoseconds in [0, 10^9), with no repeat interval; no other value
    is ever written by the call. *)
Theorem set_programs_timer_iff_first (env : set_env) (us fn arg : Z)
    (st : engine) (a : Z) :
  set_rejects us fn = false ->
  se_calloc env = Some a ->
  ~ In a (map addr (alarm_list st)) ->
  let new_alarm := make_alarm a (se_now env) us fn arg in
  let tr := snd (rte_eal_alarm_set env us fn arg st) in
  ((exists v, In (EvSettime v) tr)
   <-> alarm_list st = [] \/
       exists ap rest, alarm_list st = ap :: rest /\ entry_lt new_alarm ap) /\
  (forall v, In (EvSettime v) tr -> v = set_itimer us) /\
  it_interval (set_itimer us) = {| ts_sec := 0; ts_nsec := 0 |} /\
  timespec_ns (it_value (set_itimer us)) = us * 1000 /\
  0 <= ts_nsec (it_value (set_itimer us)) < 1000000000 /\
  0 <= ts_sec (it_value (set_itimer us)).
Proof.
  intros R C F new_alarm tr. subst tr.
  rewrite (set_admitted env us fn arg st a R C). cbn [snd]. fold new_alarm.
  pose proof (first_is_insert new_alarm (alarm_list st) F) as FI.
  change (addr new_alarm) with a in FI.
  assert (T : forall v, In (EvSettime v) (snd (try_register env st)) -> False).
  { unfold try_register. destruct (handler_registered st); cbn;
      intros v H; [exact H | destruct H as [H|[]]; discriminate]. }
  assert (U : 1 <= us <= UINT64_MAX - 1000000).
  { destruct (Z_lt_dec us 1) as [L|L];
      [|destruct (Z_gt_dec us (UINT64_MAX - 1000000)) as [G|G]; [|lia]];
      assert (X : set_rejects us fn = true) by (apply set_rejects_iff; auto);
      congruence. }
  destruct (set_itimer_exact us U) as (E1 & E2 & E3).
  assert (A : forall v arm,
             In (EvSettime v)
                ([EvLock] ++ snd (try_register env st) ++ arm ++ [EvUnlock])
             <-> In (EvSettime v) arm).
  { intros v arm. rewrite !in_app_iff. cbn [In].
    split; [|tauto].
    intros [[H|[]]|[H|[H|[H|[]]]]]; try discriminate; [now apply T in H | exact H]. }
  split; [|split; [|repeat split; assumption || apply E2]].
  - rewrite <- FI.
    destruct (first_is a (list_insert new_alarm (alarm_list st))).
    + split; [reflexivity|]. intros _. exists (set_itimer us).
      apply (A (set_itimer us) [EvSettime (set_itimer us)]). now left.
    + split; [|discriminate]. intros (v & H).
      apply (A v []) in H. destruct H.
  - intros v H.
    destruct (first_is a _);
      [apply (A v [EvSettime (set_itimer us)]) in H | apply (A v []) in H];
      [|destruct H].
    destruct H as [H|[]]. now injection H.
Qed.

(** An alarm of 5 us set in front of two pending ones programs 5000 ns. *)
Lemma set_programs_timer_iff_first_witness :
  let new_alarm := make_alarm 4288 (se_now env_reg_ok) 5 fn_g 0 in
  let tr := snd (rte_eal_alarm_set env_reg_ok 5 fn_g 0 two_pending) in
  ((exists v, In (EvSettime v) tr)
   <-> alarm_list two_pending = [] \/
       exists ap rest, alarm_list two_pending = ap :: rest /\ entry_lt new_alarm ap) /\
  (forall v, In (EvSettime v) tr -> v = set_itimer 5) /\
  it_interval (set_itimer 5) = {| ts_sec := 0; ts_nsec := 0 |} /\
  timespec_ns (it_value (set_itimer 5)) = 5 * 1000 /\
  0 <= ts_nsec (it_value (set_itimer 5)) < 1000000000 /\
  0 <= ts_sec (it_value (set_itimer 5)).
Proof.
  apply (set_programs_timer_iff_first env_reg_ok 5 fn_g 0 two_pending 4288);
    [reflexivity | reflexivity |].
  cbn. intros [H|[H|[]]]; discriminate.
Defined.

(** ** Sequences of [rte_eal_alarm_set] calls *)

Lemma run_sets_cons (c : set_call) (calls : list set_call) (st : engine) :
  run_sets (c :: calls) st =
    (fst (fst (rte_eal_alarm_set (sc_env c) (sc_us c) (sc_fn c) (sc_arg c) st))
       :: fst (fst (run_sets calls
                      (snd (fst (rte_eal_alarm_set (sc_env c) (sc_us c) (sc_fn c)
                                   (sc_arg c) st))))),
     snd (fst (run_sets calls
                 (snd (fst (rte_eal_alarm_set (sc_env c) (sc_us c) (sc_fn c)
                              (sc_arg c) st))))),
     snd (rte_eal_alarm_set (sc_env c) (sc_us c) (sc_fn c) (sc_arg c) st)
       ++ snd (run_sets calls
                 (snd (fst (rte_eal_alarm_set (sc_env c) (sc_us c) (sc_fn c)
                              (sc_arg c) st))))).
Proof.
  cbn [run_sets].
  destruct (rte_eal_alarm_set _ _ _ _ st) as [[ret st1] tr1]. cbn [fst snd].
  destruct (run_sets calls st1) as [[rets st2] tr2]. reflexivity.
Qed.

(** A call on an engine whose handler is registered leaves it registered
    and does not call [rte_intr_callback_register]. *)
Lemma set_when_registered (env : set_env) (us fn arg : Z) (st : engine) :
  handler_registered st = true ->
  handler_registered (snd (fst (rte_eal_alarm_set env us fn arg st))) = true /\
  ~ In EvRegister (snd (rte_eal_alarm_set env us fn arg st)).
Proof.
  intros H.
  destruct (set_cases env us fn arg st)
    as [(R & E) | [(R & C & E) | (a & R & C & E)]]; rewrite E; cbn [fst snd].
  - split; [exact H | intros []].
  - split; [exact H | intros []].
  - unfold try_register. rewrite H. cbn [fst snd handler_registered].
    split; [reflexivity|]. rewrite !in_app_iff. cbn [In].
    destruct (first_is a _); cbn [In]; intuition discriminate.
Qed.

(** X4. The registration of the timer handler is one-way.  Once
    [handler_registered] is set, no sequence of [rte_eal_alarm_set]
    calls, whatever they return, clears it or calls
    [rte_intr_callback_register] again. *)
Theorem sets_register_once (calls : list set_call) (st : engine) :
  handler_registered st = true ->
  handler_registered (snd (fst (run_sets calls st))) = true /\
  ~ In EvRegister (snd (run_sets calls st)).
Proof.
  revert st. induction calls as [|c calls IH]; intros st H.
  - cbn. split; [exact H | intros []].
  - rewrite run_sets_cons. cbn [fst snd].
    destruct (set_when_registered (sc_env c) (sc_us c) (sc_fn c) (sc_arg c) st H)
      as [H1 N1].
    destruct (IH _ H1) as [H2 N2].
    split; [exact H2|]. rewrite in_app_iff. tauto.
Qed.

(** The second and third call of scenario 1 find the handler registered
    by the first. *)
Lemma sets_register_once_witness :
  handler_registered
    (snd (fst (run_sets
                 [{| sc_env := env_at_zero 4160; sc_us := 10000;
                     sc_fn := fn_f; sc_arg := 2 |};
                  {| sc_env := env_at_zero 4224; sc_us := 20000;
                     sc_fn := fn_f; sc_arg := 3 |}]
                 (snd (fst (rte_eal_alarm_set (env_at_zero 4096) 30000 fn_f 1
                              engine_init)))))) = true /\
  ~ In EvRegister
      (snd (run_sets
              [{| sc_env := env_at_zero 4160; sc_us := 10000;
                  sc_fn := fn_f; sc_arg := 2 |};
               {| sc_env := env_at_zero 4224; sc_us := 20000;
                  sc_fn := fn_f; sc_arg := 3 |}]
              (snd (fst (rte_eal_alarm_set (env_at_zero 4096) 30000 fn_f 1
                           engine_init))))).
Proof.
  apply (sets_register_once
           [{| sc_env := env_at_zero 4160; sc_us := 10000;
               sc_fn := fn_f; sc_arg := 2 |};
            {| sc_env := env_at_zero 4224; sc_us := 20000;
               sc_fn := fn_f; sc_arg := 3 |}]
           (snd (fst (rte_eal_alarm_set (env_at_zero 4096) 30000 fn_f 1
                        engine_init)))).
  reflexivity.
Defined.

(** What one call does to the list. *)
Lemma set_list_cases (env : set_env) (us fn arg : Z) (st : engine) :
  let ret := fst (fst (rte_eal_alarm_set env us fn arg st)) in
  let l' := alarm_list (snd (fst (rte_eal_alarm_set env us fn arg st))) in
  ((ret = - EINVAL \/ ret = - ENOMEM) /\ l' = alarm_list st)
  \/ (ret <> - EINVAL /\ ret <> - ENOMEM /\
      exists a, l' = list_insert (make_alarm a (se_now env) us fn arg)
                       (alarm_list st)).
Proof.
  destruct (set_cases env us fn arg st)
    as [(R & E) | [(R & C & E) | (a & R & C & E)]]; rewrite E; cbn [fst snd].
  - left. auto.
  - left. auto.
  - right. cbn [alarm_list].
    repeat split; [| |now exists a];
      destruct (first_is a _); [destruct (se_settime_ok env)| |
                                destruct (se_settime_ok env)|]; discriminate.
Qed.

Lemma usec_in_range_insert (a : Z) (now : timespec) (us fn arg : Z)
    (l : alarm_list_t) :
  usec_in_range l ->
  usec_in_range (list_insert (make_alarm a now us fn arg) l).
Proof.
  intros U. unfold usec_in_range in *.
  destruct (list_insert_split (make_alarm a now us fn arg) l)
    as (before & after & E & I & _).
  rewrite I. rewrite E in U. apply Forall_app in U. destruct U as [U1 U2].
  apply Forall_app. split; [exact U1|]. constructor; [|exact U2].
  apply deadline_usec_range.
Qed.

Lemma all_idle_insert (a : Z) (now : timespec) (us fn arg : Z)
    (l : alarm_list_t) :
  all_idle l -> all_idle (list_insert (make_alarm a now us fn arg) l).
Proof.
  intros U. unfold all_idle in *.
  destruct (list_insert_split (make_alarm a now us fn arg) l)
    as (before & after & E & I & _).
  rewrite I. rewrite E in U. apply Forall_app in U. destruct U as [U1 U2].
  apply Forall_app. split; [exact U1|]. constructor; [reflexivity | exact U2].
Qed.

(** How many of the values returned stand for a call that linked a
    record: all but [-EINVAL] and [-ENOMEM]. *)
Lemma linked_count_cons (r : Z) (rets : list Z) :
  length (filter (fun r => negb ((r =? - EINVAL) || (r =? - ENOMEM))) (r :: rets))
  = ((if ((r =? - EINVAL) || (r =? - ENOMEM))%Z then 0 else 1)
     + length (filter (fun r => negb ((r =? - EINVAL) || (r =? - ENOMEM))%Z) rets))%nat.
Proof.
  cbn [filter]. destruct ((r =? - EINVAL) || (r =? - ENOMEM)); reflexivity.
Qed.

(** X5. Over any sequence of [rte_eal_alarm_set] calls, whatever the
    clock reads and whatever the calls return: a sorted list stays
    sorted, microseconds in [0, 10^6) stay so (also when the 64-bit sum
    wraps), no entry gets marked as executing, and the list grows by one
    entry for each call that returned neither [-EINVAL] nor [-ENOMEM]
    and by none for the others. *)
Theorem sets_keep_list_in_order (calls : list set_call) (st : engine) :
  let rets := fst (fst (run_sets calls st)) in
  let l' := alarm_list (snd (fst (run_sets calls st))) in
  (sorted (alarm_list st) -> sorted l') /\
  (usec_in_range (alarm_list st) -> usec_in_range l') /\
  (all_idle (alarm_list st) -> all_idle l') /\
  length rets = length calls /\
  length l' =
    (length (alarm_list st)
     + length (filter (fun r => negb ((r =? - EINVAL) || (r =? - ENOMEM))%Z) rets))%nat.
Proof.
  revert st. induction calls as [|c calls IH]; intros st.
  - cbn. repeat split; auto.
  - rewrite run_sets_cons. cbn [fst snd].
    specialize (IH (snd (fst (rte_eal_alarm_set (sc_env c) (sc_us c) (sc_fn c)
                                (sc_arg c) st)))).
    cbv zeta in IH. destruct IH as (I1 & I2 & I3 & I4 & I5).
    rewrite linked_count_cons, I5. cbn [length]. rewrite I4.
    destruct (set_list_cases (sc_env c) (sc_us c) (sc_fn c) (sc_arg c) st)
      as [([E|E] & L) | (N1 & N2 & a & L)]; cbv zeta in *.
    + rewrite L in *. rewrite E. cbn. repeat split; auto; lia.
    + rewrite L in *. rewrite E. cbn. repeat split; auto; lia.
    + rewrite L in *.
      apply Z.eqb_neq in N1, N2. rewrite N1, N2. cbn [orb].
      rewrite length_list_insert.
      repeat split; try lia.
      * intros S. apply I1. now apply list_insert_sorted.
      * intros S. apply I2. now apply usec_in_range_insert.
      * intros S. apply I3. now apply all_idle_insert.
Qed.

(** ** What the API does to executing entries *)

Lemma executing_entries_app (l1 l2 : alarm_list_t) :
  executing_entries (l1 ++ l2) = executing_entries l1 ++ executing_entries l2.
Proof. apply filter_app. Qed.

Lemma executing_entries_insert (a : Z) (now : timespec) (us fn arg : Z)
    (l : alarm_list_t) :
  executing_entries (list_insert (make_alarm a now us fn arg) l)
  = executing_entries l.
Proof.
  destruct (list_insert_split (make_alarm a now us fn arg) l)
    as (before & after & E & I & _).
  rewrite I, E, !executing_entries_app. reflexivity.
Qed.

Lemma executing_entries_survivors (fn arg : Z) (l : alarm_list_t) :
  executing_entries (survivors fn arg l) = executing_entries l.
Proof.
  unfold executing_entries, survivors.
  induction l as [|ap l IH]; [reflexivity|]. cbn [filter].
  unfold removable at 1.
  destruct (executing ap =? 0) eqn:X; cbn [negb].
  - rewrite andb_true_r.
    destruct (matches fn arg ap); cbn [negb filter]; [exact IH|].
    rewrite X. exact IH.
  - rewrite andb_false_r. cbn [negb filter]. rewrite X. cbn [negb].
    now rewrite IH.
Qed.

Lemma usec_in_range_survivors (fn arg : Z) (l : alarm_list_t) :
  usec_in_range l -> usec_in_range (survivors fn arg l).
Proof.
  unfold usec_in_range, survivors. rewrite !Forall_forall.
  intros H x I. apply H. now apply filter_In in I.
Qed.

(** The list part of a [rte_eal_alarm_set] critical section. *)
Lemma set_step_cases (env : set_env) (us fn arg : Z) (l : alarm_list_t) :
  set_step env us fn arg l = l
  \/ exists a, set_step env us fn arg l
               = list_insert (make_alarm a (se_now env) us fn arg) l.
Proof.
  unfold set_step.
  destruct (set_list_cases env us fn arg
              {| alarm_list := l; handler_registered := true |})
    as [(_ & L) | (_ & _ & a & L)]; cbv zeta in L; cbn [alarm_list] in L.
  - left. exact L.
  - right. exists a. exact L.
Qed.

Lemma apply_step_keeps (s : api_step) (l : alarm_list_t) :
  executing_entries (apply_step s l) = executing_entries l /\
  (sorted l -> sorted (apply_step s l)) /\
  (usec_in_range l -> usec_in_range (apply_step s l)).
Proof.
  destruct s as [env us fn arg | tid fn arg]; cbn [apply_step].
  - destruct (set_step_cases env us fn arg l) as [E | (a & E)]; rewrite E.
    + auto.
    + split; [apply executing_entries_insert|].
      split; [apply list_insert_sorted | apply usec_in_range_insert].
  - destruct (cancel_pass_spec tid fn arg l 0 0) as (E & _). rewrite E.
    split; [apply executing_entries_survivors|].
    split; [apply survivors_sorted | apply usec_in_range_survivors].
Qed.

(** X6. Whatever critical sections of [rte_eal_alarm_set] and
    [rte_eal_alarm_cancel] other threads run, in any number and order,
    the entries marked as executing are the same afterwards, in the same
    order: none is unlinked, none is added.  The entry dispatch is
    running is therefore still linked when dispatch takes the lock again
    to unlink it.  The same steps keep a sorted list sorted and
    microseconds in range. *)
Theorem api_steps_spare_executing (steps : list api_step) (l : alarm_list_t) :
  executing_entries (run_steps steps l) = executing_entries l /\
  (forall ap, In ap l -> executing ap <> 0 -> In ap (run_steps steps l)) /\
  (forall self t ap rest,
      l = mark_executing self ap :: rest ->
      In (mark_executing self ap) (w_during (api_window t steps) l)) /\
  (sorted l -> sorted (run_steps steps l)) /\
  (usec_in_range l -> usec_in_range (run_steps steps l)).
Proof.
  assert (K : forall steps l,
             executing_entries (run_steps steps l) = executing_entries l /\
             (sorted l -> sorted (run_steps steps l)) /\
             (usec_in_range l -> usec_in_range (run_steps steps l))).
  { clear. intros steps. unfold run_steps.
    induction steps as [|s steps IH]; intros l; cbn [fold_left]; [auto|].
    destruct (apply_step_keeps s l) as (a & b & c).
    destruct (IH (apply_step s l)) as (a' & b' & c').
    rewrite a', a. auto. }
  destruct (K steps l) as (E & S & U).
  assert (M : forall ap, In ap l -> executing ap <> 0 -> In ap (run_steps steps l)).
  { intros ap I X.
    assert (J : In ap (executing_entries (run_steps steps l))).
    { rewrite E. unfold executing_entries. apply filter_In.
      split; [exact I|]. apply negb_true_iff. now apply Z.eqb_neq. }
    unfold executing_entries in J. now apply filter_In in J. }
  split; [exact E|]. split; [exact M|]. split; [|split; assumption].
  intros self t ap rest ->. cbn [api_window w_during].
  apply M; [now left | discriminate].
Qed.

(** ** [rte_eal_alarm_cancel] composed with itself and with set *)

Lemma survivors_app (fn arg : Z) (l1 l2 : alarm_list_t) :
  survivors fn arg (l1 ++ l2) = survivors fn arg l1 ++ survivors fn arg l2.
Proof. apply filter_app. Qed.

(** A list without any entry matching the callback and the argument. *)
Lemma nothing_matches (self fn arg : Z) (l : alarm_list_t) :
  existsb (matches fn arg) l = false ->
  survivors fn arg l = l /\
  filter (removable fn arg) l = [] /\
  existsb (running_on_self self fn arg) l = false /\
  existsb (running_elsewhere self fn arg) l = false.
Proof.
  induction l as [|ap l IH]; [cbn; auto|].
  cbn [existsb]. rewrite orb_false_iff. intros [M H].
  destruct (IH H) as (a & b & c & d).
  destruct (kinds_other self fn arg ap M) as (Kr & Ks & Ke).
  unfold survivors in *. cbn [filter existsb].
  rewrite Kr, Ks, Ke, a, b, c, d. auto.
Qed.

(** After a pass nothing is left to remove, and the entries that are
    running are the ones that were. *)
Lemma survivors_settled (self fn arg : Z) (l : alarm_list_t) :
  existsb (removable fn arg) (survivors fn arg l) = false /\
  existsb (running_on_self self fn arg) (survivors fn arg l)
    = existsb (running_on_self self fn arg) l /\
  existsb (running_elsewhere self fn arg) (survivors fn arg l)
    = existsb (running_elsewhere self fn arg) l.
Proof.
  unfold survivors. induction l as [|ap l (a & b & c)]; [cbn; auto|].
  cbn [filter existsb].
  destruct (matches fn arg ap) eqn:M; [destruct (executing ap =? 0) eqn:X|].
  - destruct (kinds_idle self fn arg ap M X) as (Kr & Ks & Ke).
    rewrite Kr, Ks, Ke. cbn [negb orb]. auto.
  - destruct (kinds_busy self fn arg ap M X) as (Kr & Ks & Ke).
    rewrite Kr. cbn [negb existsb]. rewrite Kr, a, b, c. auto.
  - destruct (kinds_other self fn arg ap M) as (Kr & Ks & Ke).
    rewrite Kr. cbn [negb existsb]. rewrite Kr, a, b, c. auto.
Qed.

(** X7. Cancel undoes set.  When no pending entry matches the callback
    and the argument, an admitted [rte_eal_alarm_set] followed by
    [rte_eal_alarm_cancel] with the same callback and argument returns 1,
    frees the record that was just allocated, leaves the list exactly as
    it was before the set, and does not touch [rte_errno]. *)
Theorem cancel_undoes_set (env : set_env) (us fn arg : Z) (st : engine) (a : Z)
    (self : Z) (others : list (alarm_list_t -> alarm_list_t)) (errno : Z) :
  set_rejects us fn = false ->
  se_calloc env = Some a ->
  existsb (matches fn arg) (alarm_list st) = false ->
  let l' := alarm_list (snd (fst (rte_eal_alarm_set env us fn arg st))) in
  rte_eal_alarm_cancel self fn arg others errno l' =
    Some {| cr_ret := 1; cr_errno := errno; cr_list := alarm_list st;
            cr_seen := [l']; cr_trace := [EvLock; EvFree a; EvUnlock] |}.
Proof.
  intros R C M l'. subst l'.
  rewrite (set_admitted env us fn arg st a R C). cbn [fst snd alarm_list].
  set (new_alarm := make_alarm a (se_now env) us fn arg).
  assert (N : fn <> NULL).
  { intros E. assert (X : set_rejects us fn = true)
      by (apply set_rejects_iff; auto). congruence. }
  destruct (list_insert_split new_alarm (alarm_list st))
    as (before & after & E & I & _).
  assert (Mn : matches fn arg new_alarm = true).
  { unfold matches, new_alarm. cbn [make_alarm cb_fn cb_arg].
    rewrite !Z.eqb_refl. cbn. apply orb_true_r. }
  destruct (kinds_idle self fn arg new_alarm Mn eq_refl) as (Kr & Ks & Ke).
  rewrite E, existsb_app, orb_false_iff in M. destruct M as [M1 M2].
  destruct (nothing_matches self fn arg before M1) as (b1 & b2 & b3 & b4).
  destruct (nothing_matches self fn arg after M2) as (a1 & a2 & a3 & a4).
  assert (X1 : existsb (running_elsewhere self fn arg) (list_insert new_alarm
                                                          (alarm_list st)) = false).
  { rewrite I, existsb_app. cbn [existsb]. now rewrite b4, a4, Ke. }
  rewrite (cancel_once self fn arg others errno _ N X1).
  assert (X2 : existsb (running_on_self self fn arg)
                 (list_insert new_alarm (alarm_list st)) = false).
  { rewrite I, existsb_app. cbn [existsb]. now rewrite b3, a3, Ks. }
  assert (X3 : filter (removable fn arg) (list_insert new_alarm (alarm_list st))
               = [new_alarm]).
  { rewrite I, filter_app. cbn [filter]. now rewrite Kr, b2, a2. }
  assert (X4 : survivors fn arg (list_insert new_alarm (alarm_list st))
               = alarm_list st).
  { rewrite I, survivors_app. unfold survivors at 2. cbn [filter].
    rewrite Kr. cbn [negb]. fold (survivors fn arg after).
    now rewrite b1, a1, E. }
  unfold pass_trace, count_of. rewrite X2, X3, X4. reflexivity.
Qed.

(** Scenario 2: an alarm of [fn_g] with argument 7 is set among two
    others and cancelled again. *)
Lemma cancel_undoes_set_witness :
  let l' := alarm_list (snd (fst (rte_eal_alarm_set env_reg_ok 50000 fn_g 7
                                    two_pending))) in
  rte_eal_alarm_cancel tid_worker fn_g 7 [] 0 l' =
    Some {| cr_ret := 1; cr_errno := 0; cr_list := alarm_list two_pending;
            cr_seen := [l']; cr_trace := [EvLock; EvFree 4288; EvUnlock] |}.
Proof.
  apply (cancel_undoes_set env_reg_ok 50000 fn_g 7 two_pending 4288
           tid_worker [] 0); reflexivity.
Defined.

(** X8. Cancelling twice.  After a call that returned in one pass, a
    second call with the same callback and argument on the list it left
    removes nothing: it returns 0 and leaves the list as it is, with
    [rte_errno] set to [EINPROGRESS] when a matching entry is being run
    by the caller and to [ENOENT] otherwise. *)
Theorem cancel_twice_removes_nothing (self fn arg : Z)
    (others others' : list (alarm_list_t -> alarm_list_t)) (errno errno' : Z)
    (l : alarm_list_t) :
  fn <> NULL ->
  existsb (running_elsewhere self fn arg) l = false ->
  exists r,
    rte_eal_alarm_cancel self fn arg others errno l = Some r /\
    cr_list r = survivors fn arg l /\
    rte_eal_alarm_cancel self fn arg others' errno' (cr_list r) =
      Some {| cr_ret := 0;
              cr_errno := if existsb (running_on_self self fn arg) l
                          then EINPROGRESS else ENOENT;
              cr_list := cr_list r; cr_seen := [cr_list r];
              cr_trace := [EvLock; EvUnlock] |}.
Proof.
  intros N E. rewrite (cancel_once self fn arg others errno l N E).
  eexists. split; [reflexivity|]. cbn [cr_list]. split; [reflexivity|].
  destruct (survivors_settled self fn arg l) as (a & b & c).
  rewrite (cancel_once self fn arg others' errno' _ N) by now rewrite c.
  destruct (nothing_removable fn arg _ a) as (S1 & S2 & S3).
  unfold pass_trace. rewrite S1, S2, S3, b. cbn [map app].
  destruct (existsb (running_on_self self fn arg) l); reflexivity.
Qed.

(** The wildcard cancel of scenario 3, made a second time. *)
Lemma cancel_twice_removes_nothing_witness :
  exists r,
    rte_eal_alarm_cancel tid_worker fn_f VOID_MINUS_ONE [] 0 three_idle = Some r /\
    cr_list r = survivors fn_f VOID_MINUS_ONE three_idle /\
    rte_eal_alarm_cancel tid_worker fn_f VOID_MINUS_ONE [] 0 (cr_list r) =
      Some {| cr_ret := 0;
              cr_errno :=
                if existsb (running_on_self tid_worker fn_f VOID_MINUS_ONE) three_idle
                then EINPROGRESS else ENOENT;
              cr_list := cr_list r; cr_seen := [cr_list r];
              cr_trace := [EvLock; EvUnlock] |}.
Proof.
  apply (cancel_twice_removes_nothing tid_worker fn_f VOID_MINUS_ONE [] [] 0 0
           three_idle); [discriminate | reflexivity].
Defined.

(** ** The value returned and [rte_errno] *)

(** X9. [rte_eal_alarm_cancel] returns -1 exactly when the callback is
    null; it then sets [rte_errno] to [EINVAL] without taking the lock or
    touching the list.  A call that removed at least one entry leaves
    [rte_errno] as it found it, unless some pass met a matching entry
    executing on the calling thread: then [rte_errno] is [EINPROGRESS]
    although the count is positive. *)
Theorem cancel_return_and_errno (self fn arg : Z)
    (others : list (alarm_list_t -> alarm_list_t)) (errno : Z) (l : alarm_list_t)
    (r : cancel_result) :
  rte_eal_alarm_cancel self fn arg others errno l = Some r ->
  (cr_ret r = -1 <-> fn = NULL) /\
  (fn = NULL -> cr_errno r = EINVAL /\ cr_list r = l /\ cr_trace r = []) /\
  (fn <> NULL -> 0 < cr_ret r ->
   cr_errno r =
     if existsb (existsb (running_on_self self fn arg)) (cr_seen r)
     then EINPROGRESS else errno).
Proof.
  unfold rte_eal_alarm_cancel. destruct (Z.eqb_spec fn NULL) as [N|N].
  - intros H. injection H as <-. cbn [cr_ret cr_errno cr_list cr_trace].
    split; [tauto|]. split; [auto | intros F; now elim F].
  - destruct (cancel_loop self fn arg others l 0 0) as [x|] eqn:L; [|discriminate].
    intros H. injection H as <-. cbn [cr_ret cr_errno cr_list cr_trace cr_seen].
    destruct (cancel_loop_spec self fn arg others l 0 0 x L)
      as (_ & _ & c & d & _).
    pose proof (removed_over_nonneg fn arg (le_seen x)) as P.
    split; [split; [lia | intros F; now elim N]|].
    split; [intros F; now elim N|].
    intros _ G. unfold cancel_errno. rewrite d.
    assert (Z0 : (le_count x =? 0) = false) by (apply Z.eqb_neq; lia).
    rewrite Z0. cbn [andb].
    destruct (existsb (existsb (running_on_self self fn arg)) (le_seen x));
      reflexivity.
Qed.

(** Scenario 6: the running callback cancels its sibling; 1 is returned
    together with [EINPROGRESS]. *)
Lemma cancel_return_and_errno_witness :
  let r := {| cr_ret := 1; cr_errno := EINPROGRESS;
              cr_list := [running_at 4096 10 0 fn_f 1 tid_dispatch;
                          entry_at 4224 13 0 fn_g 3];
              cr_seen := [head_running];
              cr_trace := [EvLock; EvFree 4160; EvUnlock] |} in
  (cr_ret r = -1 <-> fn_f = NULL) /\
  (fn_f = NULL -> cr_errno r = EINVAL /\ cr_list r = head_running /\ cr_trace r = []) /\
  (fn_f <> NULL -> 0 < cr_ret r ->
   cr_errno r =
     if existsb (existsb (running_on_self tid_dispatch fn_f VOID_MINUS_ONE))
                (cr_seen r)
     then EINPROGRESS else 0).
Proof.
  apply (cancel_return_and_errno tid_dispatch fn_f VOID_MINUS_ONE
           [dispatch_finishes] 0 head_running).
  reflexivity.
Defined.

(** ** Cancelling an alarm that is running on another thread *)

Lemma all_idle_no_running (self fn arg : Z) (l : alarm_list_t) :
  all_idle l ->
  existsb (running_on_self self fn arg) l = false /\
  existsb (running_elsewhere self fn arg) l = false.
Proof.
  unfold all_idle. induction 1 as [|ap l X _ (a & b)]; [cbn; auto|].
  cbn [existsb]. rewrite a, b.
  unfold running_on_self, running_elsewhere. rewrite X. cbn.
  rewrite !andb_false_r. auto.
Qed.

Lemma all_idle_survivors (fn arg : Z) (l : alarm_list_t) :
  all_idle l -> all_idle (survivors fn arg l).
Proof.
  unfold all_idle, survivors. rewrite !Forall_forall.
  intros H x I. apply H. now apply filter_In in I.
Qed.

(** X10. A thread cancels an alarm whose callback is being run by the
    dispatch thread, at the head of a list whose other entries are idle.
    The first pass removes the idle matches and spins; once dispatch has
    unlinked the running entry, the second pass finds nothing and the
    call returns.  The value returned counts the idle matches only: the
    running alarm is not counted, and with no idle match the call
    returns 0 with [ENOENT]. *)
Theorem cancel_waits_for_dispatch (self fn arg : Z)
    (more : list (alarm_list_t -> alarm_list_t)) (errno : Z)
    (ap : alarm_entry) (rest : alarm_list_t) :
  fn <> NULL ->
  running_elsewhere self fn arg ap = true ->
  all_idle rest ->
  rte_eal_alarm_cancel self fn arg (list_remove (addr ap) :: more) errno
    (ap :: rest) =
    Some {| cr_ret := count_of (removable fn arg) rest;
            cr_errno := if count_of (removable fn arg) rest =? 0
                        then ENOENT else errno;
            cr_list := survivors fn arg rest;
            cr_seen := [ap :: rest; survivors fn arg rest];
            cr_trace := pass_trace fn arg (ap :: rest) ++ [EvLock; EvUnlock] |}.
Proof.
  intros N E A. rewrite cancel_non_null by exact N.
  destruct (all_idle_no_running self fn arg rest A) as (S0 & E0).
  apply running_elsewhere_iff in E. destruct E as (M & X & D).
  apply Z.eqb_neq in X.
  destruct (kinds_busy self fn arg ap M X) as (Kr & Ks & Ke).
  assert (P : (pthread_equal (executing_id ap) self =? 0) = true).
  { unfold pthread_equal. apply Z.eqb_neq in D. now rewrite D. }
  rewrite P in Ks, Ke. cbn [negb] in Ks.
  rewrite cancel_loop_unfold. cbv zeta. cbn [existsb].
  rewrite Ke, Ks, S0. cbn [orb].
  assert (V : survivors fn arg (ap :: rest) = ap :: survivors fn arg rest).
  { unfold survivors. cbn [filter]. now rewrite Kr. }
  rewrite V. cbn [list_remove]. rewrite Z.eqb_refl.
  destruct (all_idle_no_running self fn arg _ (all_idle_survivors fn arg rest A))
    as (S1 & E1).
  rewrite (cancel_loop_once self fn arg more _ _ _ E1).
  destruct (survivors_settled self fn arg rest) as (a & _).
  destruct (nothing_removable fn arg _ a) as (T1 & T2 & T3).
  assert (PT : pass_trace fn arg (survivors fn arg rest) = [EvLock; EvUnlock])
    by (unfold pass_trace; now rewrite T2).
  rewrite S1, T1, T3, PT, count_of_cons, Kr.
  replace (0 + (0 + count_of (removable fn arg) rest) + 0)
    with (count_of (removable fn arg) rest) by lia.
  cbn [le_list le_count le_err le_seen le_trace].
  unfold cancel_errno. change (0 =? 0) with true. cbn [negb].
  rewrite andb_true_r. reflexivity.
Qed.

(** Scenario 5 with an idle sibling: the worker's wildcard cancel waits
    for dispatch and returns 1. *)
Lemma cancel_waits_for_dispatch_witness :
  rte_eal_alarm_cancel tid_worker fn_f VOID_MINUS_ONE
    (list_remove (addr (running_at 4096 10 0 fn_f 1 tid_dispatch)) :: []) 0
    (running_at 4096 10 0 fn_f 1 tid_dispatch
       :: [entry_at 4160 12 500 fn_f 2; entry_at 4224 13 0 fn_g 3]) =
    Some {| cr_ret := count_of (removable fn_f VOID_MINUS_ONE)
                        [entry_at 4160 12 500 fn_f 2; entry_at 4224 13 0 fn_g 3];
            cr_errno :=
              if count_of (removable fn_f VOID_MINUS_ONE)
                   [entry_at 4160 12 500 fn_f 2; entry_at 4224 13 0 fn_g 3] =? 0
              then ENOENT else 0;
            cr_list := survivors fn_f VOID_MINUS_ONE
                         [entry_at 4160 12 500 fn_f 2; entry_at 4224 13 0 fn_g 3];
            cr_seen := [head_running;
                        survivors fn_f VOID_MINUS_ONE
                          [entry_at 4160 12 500 fn_f 2; entry_at 4224 13 0 fn_g 3]];
            cr_trace := pass_trace fn_f VOID_MINUS_ONE head_running
                        ++ [EvLock; EvUnlock] |}.
Proof.
  apply (cancel_waits_for_dispatch tid_worker fn_f VOID_MINUS_ONE [] 0
           (running_at 4096 10 0 fn_f 1 tid_dispatch)
           [entry_at 4160 12 500 fn_f 2; entry_at 4224 13 0 fn_g 3]).
  - discriminate.
  - reflexivity.
  - repeat constructor.
Defined.

(** ** The lock discipline *)

Lemma lock_ok_app (tr1 tr2 : list event) :
  forall held,
    lock_ok held (tr1 ++ tr2) =
      match lock_ok held tr1 with
      | Some held' => lock_ok held' tr2
      | None => None
      end.
Proof.
  induction tr1 as [|e tr1 IH]; intros held; [reflexivity|].
  cbn [app lock_ok]. destruct e; destruct held; try reflexivity; apply IH.
Qed.

Lemma lock_ok_frees (l : list Z) : lock_ok true (map EvFree l) = Some true.
Proof. induction l as [|a l IH]; [reflexivity | exact IH]. Qed.

Lemma lock_ok_pass (fn arg : Z) (l : alarm_list_t) :
  lock_ok false (pass_trace fn arg l) = Some false.
Proof.
  unfold pass_trace. cbn [app lock_ok].
  rewrite lock_ok_app, lock_ok_frees. reflexivity.
Qed.

Lemma lock_ok_passes (fn arg : Z) (seen : list alarm_list_t) :
  lock_ok false (flat_map (pass_trace fn arg) seen) = Some false.
Proof.
  induction seen as [|l seen IH]; [reflexivity|].
  cbn [flat_map]. now rewrite lock_ok_app, lock_ok_pass.
Qed.

Lemma lock_ok_fired (fired : list alarm_entry) :
  lock_ok true (flat_map fire_trace fired) = Some true.
Proof.
  induction fired as [|ap fired IH]; [reflexivity|].
  cbn [flat_map fire_trace app lock_ok]. exact IH.
Qed.

Lemma lock_ok_set (env : set_env) (us fn arg : Z) (st : engine) :
  lock_ok false (snd (rte_eal_alarm_set env us fn arg st)) = Some false.
Proof.
  destruct (set_cases env us fn arg st)
    as [(R & E) | [(R & C & E) | (a & R & C & E)]]; rewrite E; cbn [snd];
    try reflexivity.
  unfold try_register.
  destruct (handler_registered st); destruct (first_is a _); reflexivity.
Qed.

(** X11. [rte_eal_alarm_set] keeps the lock discipline: it calls
    [rte_intr_callback_register] and [timerfd_settime] only between
    taking [alarm_list_lk] and releasing it, never takes the lock twice,
    and has released it when it returns, on every path; the paths that
    return [-EINVAL] or [-ENOMEM] never take it.  So has any sequence of
    calls. *)
Theorem set_lock_discipline (calls : list set_call) (st : engine) :
  lock_ok false (snd (run_sets calls st)) = Some false /\
  (forall env us fn arg,
      lock_ok false (snd (rte_eal_alarm_set env us fn arg st)) = Some false /\
      (In EvLock (snd (rte_eal_alarm_set env us fn arg st))
       <-> fst (fst (rte_eal_alarm_set env us fn arg st)) <> - EINVAL /\
           fst (fst (rte_eal_alarm_set env us fn arg st)) <> - ENOMEM)).
Proof.
  split.
  - revert st. induction calls as [|c calls IH]; intros st; [reflexivity|].
    rewrite run_sets_cons. cbn [snd].
    now rewrite lock_ok_app, lock_ok_set.
  - intros env us fn arg. split; [apply lock_ok_set|].
    destruct (set_cases env us fn arg st)
      as [(R & E) | [(R & C & E) | (a & R & C & E)]]; rewrite E; cbn [fst snd].
    + split; [intros [] | intros [H _]; now elim H].
    + split; [intros [] | intros [_ H]; now elim H].
    + split; [|intros _; now left].
      intros _.
      destruct (first_is a _); [destruct (se_settime_ok env)|];
        split; discriminate.
Qed.

(** One lock per pass, and no call of a user callback. *)
Lemma passes_events (fn arg : Z) (seen : list alarm_list_t) :
  length (filter (fun e => match e with EvLock => true | _ => false end)
            (flat_map (pass_trace fn arg) seen)) = length seen /\
  filter (fun e => match e with EvCall _ _ => true | _ => false end)
    (flat_map (pass_trace fn arg) seen) = [].
Proof.
  assert (P : forall s,
             filter (fun e => match e with EvLock => true | _ => false end)
               (pass_trace fn arg s) = [EvLock] /\
             filter (fun e => match e with EvCall _ _ => true | _ => false end)
               (pass_trace fn arg s) = []).
  { intros s. unfold pass_trace. cbn [app filter].
    rewrite !filter_app. cbn [filter].
    induction (map addr (filter (removable fn arg) s)) as [|a' q IH];
      [cbn; auto|]. cbn [map filter]. exact IH. }
  induction seen as [|s seen [I1 I2]]; [cbn; auto|].
  cbn [flat_map length].
  rewrite (filter_app _ (pass_trace fn arg s)), length_app.
  rewrite (filter_app _ (pass_trace fn arg s)).
  destruct (P s) as [P1 P2].
  rewrite P1, P2, I1, I2. cbn. auto.
Qed.

(** X12. [rte_eal_alarm_cancel] keeps the lock discipline: every pass
    takes the lock once, frees records only while holding it and
    releases it before the next pass or the return, so the thread that
    is waited for can always get the lock between two passes. *)
Theorem cancel_lock_discipline (self fn arg : Z)
    (others : list (alarm_list_t -> alarm_list_t)) (errno : Z) (l : alarm_list_t)
    (r : cancel_result) :
  rte_eal_alarm_cancel self fn arg others errno l = Some r ->
  lock_ok false (cr_trace r) = Some false /\
  length (filter (fun e => match e with EvLock => true | _ => false end)
            (cr_trace r)) = length (cr_seen r) /\
  filter (fun e => match e with EvCall _ _ => true | _ => false end)
    (cr_trace r) = [].
Proof.
  unfold rte_eal_alarm_cancel. destruct (fn =? NULL).
  - intros H. injection H as <-. cbn. auto.
  - destruct (cancel_loop self fn arg others l 0 0) as [x|] eqn:L; [|discriminate].
    intros H. injection H as <-. cbn [cr_trace cr_seen].
    destruct (cancel_loop_spec self fn arg others l 0 0 x L)
      as (_ & _ & _ & _ & e & _).
    rewrite e. split; [apply lock_ok_passes | apply passes_events].
Qed.

(** The cross-thread cancel of scenario 5: two passes, two locks. *)
Lemma cancel_lock_discipline_witness :
  let r := {| cr_ret := 0; cr_errno := ENOENT;
              cr_list := [entry_at 4224 13 0 fn_g 3];
              cr_seen := [only_running; [entry_at 4224 13 0 fn_g 3]];
              cr_trace := [EvLock; EvUnlock; EvLock; EvUnlock] |} in
  lock_ok false (cr_trace r) = Some false /\
  length (filter (fun e => match e with EvLock => true | _ => false end)
            (cr_trace r)) = length (cr_seen r) /\
  filter (fun e => match e with EvCall _ _ => true | _ => false end)
    (cr_trace r) = [].
Proof.
  apply (cancel_lock_discipline tid_worker fn_f 1 [dispatch_finishes] 0
           only_running).
  reflexivity.
Defined.

(** The callbacks called and the records freed by the loop. *)
Lemma fired_events (fired : list alarm_entry) :
  filter (fun e => match e with EvCall _ _ => true | _ => false end)
    (flat_map fire_trace fired)
    = map (fun ap => EvCall (cb_fn ap) (cb_arg ap)) fired /\
  filter (fun e => match e with EvFree _ => true | _ => false end)
    (flat_map fire_trace fired)
    = map (fun ap => EvFree (addr ap)) fired.
Proof.
  induction fired as [|ap fired [I1 I2]]; [cbn; auto|].
  cbn [flat_map fire_trace app filter map]. rewrite I1, I2. auto.
Qed.

(** X13. [eal_alarm_callback] keeps the lock discipline: it never calls
    a user callback while holding [alarm_list_lk], so a callback may
    call [rte_eal_alarm_set] and [rte_eal_alarm_cancel]; it unlinks and
    frees entries and writes the timer only while holding the lock, and
    has released it when it returns.  It calls one callback for each
    entry it frees, in the same order. *)
Theorem dispatch_lock_discipline (self : Z) (ws : list window) (now0 : timespec)
    (l : alarm_list_t) (r : drain_exit) :
  eal_alarm_callback self ws now0 l = Some r ->
  lock_ok false (dx_trace r) = Some false /\
  filter (fun e => match e with EvCall _ _ => true | _ => false end) (dx_trace r)
    = map (fun ap => EvCall (cb_fn ap) (cb_arg ap)) (dx_fired r) /\
  filter (fun e => match e with EvFree _ => true | _ => false end) (dx_trace r)
    = map (fun ap => EvFree (addr ap)) (dx_fired r).
Proof.
  unfold eal_alarm_callback.
  destruct (drain_due self ws now0 l) as [x|] eqn:R; [|discriminate].
  intros H. injection H as <-. cbn [dx_trace dx_fired].
  destruct (drain_due_spec self ws now0 l x R) as (a & _).
  rewrite a. split.
  - cbn [app lock_ok]. rewrite lock_ok_app, lock_ok_fired.
    destruct (dx_list x); reflexivity.
  - cbn [app filter]. rewrite !filter_app.
    assert (T : forall p,
               filter p (rearm (dx_list x) (dx_now x) ++ [EvUnlock])
               = filter p (rearm (dx_list x) (dx_now x)) ++ filter p [EvUnlock])
      by (intros p; apply filter_app).
    assert (Q : filter (fun e => match e with EvCall _ _ => true | _ => false end)
                  (rearm (dx_list x) (dx_now x)) = [] /\
                filter (fun e => match e with EvFree _ => true | _ => false end)
                  (rearm (dx_list x) (dx_now x)) = [])
      by (destruct (dx_list x); cbn; auto).
    destruct Q as [Q1 Q2]. rewrite Q1, Q2. cbn [filter app].
    rewrite !app_nil_r. apply fired_events.
Qed.

(** Scenario 1 at 25 ms. *)
Lemma dispatch_lock_discipline_witness :
  exists r,
    eal_alarm_callback tid_dispatch
      [quiet_at at_25ms; quiet_at at_25ms; quiet_at at_25ms]
      {| ts_sec := 0; ts_nsec := 0 |} three_sorted = Some r /\
    lock_ok false (dx_trace r) = Some false /\
    filter (fun e => match e with EvCall _ _ => true | _ => false end) (dx_trace r)
      = map (fun ap => EvCall (cb_fn ap) (cb_arg ap)) (dx_fired r) /\
    filter (fun e => match e with EvFree _ => true | _ => false end) (dx_trace r)
      = map (fun ap => EvFree (addr ap)) (dx_fired r).
Proof.
  eexists. split; [reflexivity|].
  apply (dispatch_lock_discipline tid_dispatch
           [quiet_at at_25ms; quiet_at at_25ms; quiet_at at_25ms]
           {| ts_sec := 0; ts_nsec := 0 |} three_sorted).
  reflexivity.
Defined.

(** ** Which alarms a dispatch run fires *)

Lemma not_due_filter (now : timespec) (l : alarm_list_t) :
  Forall (fun x => due x now = false) l ->
  filter (fun ap => due ap now) l = [] /\
  filter (fun ap => negb (due ap now)) l = l.
Proof.
  induction 1 as [|ap l D _ (a & b)]; [cbn; auto|].
  cbn [filter]. rewrite D, a, b. cbn. auto.
Qed.

Lemma drain_due_fixed (self : Z) (now : timespec) (n : nat) :
  forall l now',
    sorted l -> (length l <= n)%nat ->
    exists x,
      drain_due self (repeat (quiet_at now) n) now' l = Some x /\
      dx_fired x = filter (fun ap => due ap now) l /\
      dx_list x = filter (fun ap => negb (due ap now)) l /\
      (dx_list x <> [] -> dx_now x = now).
Proof.
  induction n as [|n IH]; intros l now' S L; destruct l as [|ap rest];
    cbn [repeat drain_due]; try (cbn in L; lia).
  - eexists. split; [reflexivity|]. cbn. repeat split; auto. intros F; now elim F.
  - eexists. split; [reflexivity|]. cbn. repeat split; auto. intros F; now elim F.
  - cbn [quiet_at w_clock w_now w_during]. change (0 =? 0) with true. cbv iota.
    destruct (due ap now) eqn:D.
    + cbn [list_remove mark_executing addr]. rewrite Z.eqb_refl.
      destruct (IH rest now (sorted_tail _ _ S)) as (y & R & a & b & c);
        [cbn in L; lia|].
      rewrite R. eexists. split; [reflexivity|].
      cbn [dx_fired dx_list dx_now filter]. rewrite D, a, b. cbn [negb].
      repeat split; auto. rewrite <- b. exact c.
    + eexists. split; [reflexivity|]. cbn [dx_fired dx_list dx_now].
      destruct (not_due_filter now _ (sorted_none_due now ap rest S D)) as (a & b).
      rewrite a, b. auto.
Qed.

(** X14. A dispatch run during which the clock reads [now] and nobody
    touches the list fires, on a sorted list, every entry that is due at
    [now] and no other, in list order; the entries that are not due are
    left, in their order, and the timer is programmed for the first of
    them.  One clock reading per pending entry is enough. *)
Theorem dispatch_fires_exactly_due (self : Z) (now now0 : timespec) (n : nat)
    (l : alarm_list_t) :
  sorted l ->
  (length l <= n)%nat ->
  exists r,
    eal_alarm_callback self (repeat (quiet_at now) n) now0 l = Some r /\
    dx_fired r = filter (fun ap => due ap now) l /\
    dx_list r = filter (fun ap => negb (due ap now)) l /\
    dx_trace r = [EvLock] ++ flat_map fire_trace (dx_fired r)
                 ++ rearm (dx_list r) now ++ [EvUnlock].
Proof.
  intros S L. unfold eal_alarm_callback.
  destruct (drain_due_fixed self now n l now0 S L) as (x & R & a & b & c).
  rewrite R. eexists. split; [reflexivity|].
  cbn [dx_fired dx_list dx_trace]. split; [exact a|]. split; [exact b|].
  destruct (drain_due_spec self _ _ _ _ R) as (t & _). rewrite t.
  destruct (dx_list x) as [|ap rest] eqn:Lx; [reflexivity|].
  rewrite c by discriminate. reflexivity.
Qed.

(** Scenario 1 at 25 ms. *)
Lemma dispatch_fires_exactly_due_witness :
  exists r,
    eal_alarm_callback tid_dispatch (repeat (quiet_at at_25ms) 3)
      {| ts_sec := 0; ts_nsec := 0 |} three_sorted = Some r /\
    dx_fired r = filter (fun ap => due ap at_25ms) three_sorted /\
    dx_list r = filter (fun ap => negb (due ap at_25ms)) three_sorted /\
    dx_trace r = [EvLock] ++ flat_map fire_trace (dx_fired r)
                 ++ rearm (dx_list r) at_25ms ++ [EvUnlock].
Proof.
  apply (dispatch_fires_exactly_due tid_dispatch at_25ms
           {| ts_sec := 0; ts_nsec := 0 |} 3 three_sorted).
  - repeat constructor; unfold entry_le, timeval_le; simpl; lia.
  - simpl; lia.
Defined.

(** ** From set to dispatch: when an alarm fires *)

(** For normalised values, being due is the comparison of the deadline
    with the clock in nanoseconds. *)
Lemma due_iff_ns (ap : alarm_entry) (now : timespec) :
  0 <= tv_usec (time ap) < 1000000 ->
  normalised now ->
  due ap now = true <-> timeval_ns (time ap) <= timespec_ns now.
Proof.
  unfold normalised, due, timeval_ns, timespec_ns. change NS_PER_US with 1000.
  intros U N.
  rewrite orb_true_iff, andb_true_iff, Z.ltb_lt, Z.eqb_eq, Z.leb_le. lia.
Qed.

Lemma timespec_ns_div (t : timespec) :
  normalised t ->
  timespec_ns t / 1000 = ts_sec t * 1000000 + ts_nsec t / 1000.
Proof.
  unfold normalised, timespec_ns. intros N. symmetry.
  apply (Z.div_unique _ 1000 _ (ts_nsec t mod 1000)).
  - left. apply Z.mod_pos_bound. lia.
  - pose proof (Z.div_mod (ts_nsec t) 1000). lia.
Qed.

(** X15. An alarm set on an empty list with the clock reading [t0] has
    the deadline [(t0 / 1000 + us) * 1000] nanoseconds: the nanoseconds
    of [t0] below a microsecond are dropped, so the deadline lies between
    [us * 1000 - 999] and [us * 1000] nanoseconds after [t0].  A dispatch
    run whose clock reads [t1] calls the callback with its argument,
    frees the record and leaves the list empty when [t1] has reached the
    deadline; before the deadline it calls nothing, leaves the record
    and programs the timer for the time that remains. *)
Theorem alarm_fires_at_deadline (env : set_env) (us fn arg : Z) (st : engine)
    (a self : Z) (now1 now0 : timespec) :
  set_rejects us fn = false ->
  se_calloc env = Some a ->
  alarm_list st = [] ->
  normalised (se_now env) ->
  0 <= ts_sec (se_now env) <= INT64_MAX - UINT64_MAX / 1000000 ->
  normalised now1 ->
  let new_alarm := make_alarm a (se_now env) us fn arg in
  let l' := alarm_list (snd (fst (rte_eal_alarm_set env us fn arg st))) in
  let dl := timeval_ns (time new_alarm) in
  l' = [new_alarm] /\
  dl = (timespec_ns (se_now env) / 1000 + us) * 1000 /\
  us * 1000 - 999 <= dl - timespec_ns (se_now env) <= us * 1000 /\
  (dl <= timespec_ns now1 ->
   eal_alarm_callback self [quiet_at now1] now0 l' =
     Some {| dx_list := []; dx_now := now1; dx_fired := [new_alarm];
             dx_shown := [[mark_executing self new_alarm]];
             dx_trace := [EvLock; EvUnlock; EvCall fn arg; EvLock; EvFree a;
                          EvUnlock] |}) /\
  (timespec_ns now1 < dl ->
   eal_alarm_callback self [quiet_at now1] now0 l' =
     Some {| dx_list := [new_alarm]; dx_now := now1; dx_fired := [];
             dx_shown := [];
             dx_trace := [EvLock; EvSettime (next_expiry new_alarm now1);
                          EvUnlock] |}).
Proof.
  intros R C E N S N1 new_alarm l' dl. subst l' dl.
  rewrite (set_admitted env us fn arg st a R C). cbn [fst snd alarm_list].
  rewrite E. cbn [list_insert]. fold new_alarm.
  assert (U : 1 <= us <= UINT64_MAX - 1000000).
  { destruct (Z_lt_dec us 1) as [L|L];
      [|destruct (Z_gt_dec us (UINT64_MAX - 1000000)) as [G|G]; [|lia]];
      assert (X : set_rejects us fn = true) by (apply set_rejects_iff; auto);
      congruence. }
  destruct (deadline_exact (se_now env) us U N S) as [D B].
  assert (T : timeval_ns (time new_alarm)
              = (timespec_ns (se_now env) / 1000 + us) * 1000).
  { rewrite (timespec_ns_div _ N). unfold timeval_ns, new_alarm.
    cbn [make_alarm time]. lia. }
  assert (G : us * 1000 - 999
              <= timeval_ns (time new_alarm) - timespec_ns (se_now env)
              <= us * 1000).
  { rewrite T, (timespec_ns_div _ N). unfold timespec_ns, normalised in *.
    pose proof (Z.div_mod (ts_nsec (se_now env)) 1000).
    pose proof (Z.mod_pos_bound (ts_nsec (se_now env)) 1000). lia. }
  split; [reflexivity|]. split; [exact T|]. split; [exact G|].
  pose proof (due_iff_ns new_alarm now1 B N1) as Q.
  unfold eal_alarm_callback. cbn [drain_due quiet_at w_clock w_now w_during].
  change (0 =? 0) with true. cbv iota.
  split; intros H.
  - apply Q in H. rewrite H.
    cbn [list_remove mark_executing addr new_alarm make_alarm].
    rewrite Z.eqb_refl. reflexivity.
  - destruct (due new_alarm now1) eqn:Dn;
      [pose proof (proj1 Q eq_refl); lia|]. reflexivity.
Qed.

(** An alarm of 10 ms set at 1999 ns is due at 10001000 ns, 999 ns
    short of 10 ms after the set; a dispatch at 10001000 ns fires it. *)
Lemma alarm_fires_at_deadline_witness :
  let env := {| se_now := {| ts_sec := 0; ts_nsec := 1999 |};
                se_calloc := Some 4096; se_register := 0;
                se_settime_ok := true |} in
  let now1 := {| ts_sec := 0; ts_nsec := 10001000 |} in
  let new_alarm := make_alarm 4096 (se_now env) 10000 fn_f 1 in
  let l' := alarm_list (snd (fst (rte_eal_alarm_set env 10000 fn_f 1 engine_init))) in
  let dl := timeval_ns (time new_alarm) in
  l' = [new_alarm] /\
  dl = (timespec_ns (se_now env) / 1000 + 10000) * 1000 /\
  10000 * 1000 - 999 <= dl - timespec_ns (se_now env) <= 10000 * 1000 /\
  (dl <= timespec_ns now1 ->
   eal_alarm_callback tid_dispatch [quiet_at now1] now1 l' =
     Some {| dx_list := []; dx_now := now1; dx_fired := [new_alarm];
             dx_shown := [[mark_executing tid_dispatch new_alarm]];
             dx_trace := [EvLock; EvUnlock; EvCall fn_f 1; EvLock; EvFree 4096;
                          EvUnlock] |}) /\
  (timespec_ns now1 < dl ->
   eal_alarm_callback tid_dispatch [quiet_at now1] now1 l' =
     Some {| dx_list := [new_alarm]; dx_now := now1; dx_fired := [];
             dx_shown := [];
             dx_trace := [EvLock; EvSettime (next_expiry new_alarm now1);
                          EvUnlock] |}).
Proof.
  apply (alarm_fires_at_deadline
           {| se_now := {| ts_sec := 0; ts_nsec := 1999 |};
              se_calloc := Some 4096; se_register := 0; se_settime_ok := true |}
           10000 fn_f 1 engine_init 4096 tid_dispatch
           {| ts_sec := 0; ts_nsec := 10001000 |}
           {| ts_sec := 0; ts_nsec := 10001000 |});
    try reflexivity; unfold normalised, INT64_MAX, UINT64_MAX; simpl; lia.
Defined.

Example alarm_fires_999ns_early :
  timeval_ns (deadline {| ts_sec := 0; ts_nsec := 1999 |} 10000) = 10001000.
Proof. reflexivity. Qed.

(** ** A cancelled alarm does not fire *)

Lemma filter_filter (p q : alarm_entry -> bool) (l : alarm_list_t) :
  filter p (filter q l) = filter (fun ap => p ap && q ap) l.
Proof.
  induction l as [|ap l IH]; [reflexivity|]. cbn [filter].
  destruct (q ap); cbn [filter]; rewrite ?andb_true_r, ?andb_false_r;
    [destruct (p ap)|]; now rewrite IH.
Qed.

(** X16. Cancel, then dispatch.  On a sorted list none of whose entries
    is executing, [rte_eal_alarm_cancel] returns the number of matching
    entries and unlinks them, and a later dispatch run during which the
    clock reads [now] fires exactly the due entries that do not match:
    no callback is called for an alarm that matches the cancelled
    callback and argument. *)
Theorem cancel_then_dispatch (self fn arg : Z)
    (others : list (alarm_list_t -> alarm_list_t)) (errno : Z)
    (self' : Z) (now now0 : timespec) (n : nat) (l : alarm_list_t) :
  fn <> NULL ->
  all_idle l ->
  sorted l ->
  (length l <= n)%nat ->
  exists rc rd,
    rte_eal_alarm_cancel self fn arg others errno l = Some rc /\
    cr_ret rc = count_of (matches fn arg) l /\
    cr_list rc = filter (fun ap => negb (matches fn arg ap)) l /\
    eal_alarm_callback self' (repeat (quiet_at now) n) now0 (cr_list rc) = Some rd /\
    dx_fired rd
      = filter (fun ap => due ap now && negb (matches fn arg ap)) l /\
    Forall (fun ap => matches fn arg ap = false) (dx_fired rd).
Proof.
  intros N A S L.
  destruct (all_idle_no_running self fn arg l A) as (_ & E).
  rewrite (cancel_once self fn arg others errno l N E).
  assert (M : forall p : bool -> bool,
             filter (fun ap => p (removable fn arg ap)) l
             = filter (fun ap => p (matches fn arg ap)) l).
  { intros p. unfold all_idle in A. rewrite Forall_forall in A.
    apply filter_ext_in. intros ap I. unfold removable.
    rewrite (A ap I). cbn. now rewrite andb_true_r. }
  assert (V : survivors fn arg l = filter (fun ap => negb (matches fn arg ap)) l)
    by (unfold survivors; apply (M negb)).
  assert (K : count_of (removable fn arg) l = count_of (matches fn arg) l).
  { unfold count_of. f_equal. f_equal.
    rewrite (filter_ext (removable fn arg) (fun ap => id (removable fn arg ap)))
      by reflexivity.
    rewrite (M id). apply filter_ext. reflexivity. }
  assert (L' : (length (survivors fn arg l) <= n)%nat).
  { unfold survivors. pose proof (filter_length_le
                                    (fun ap => negb (removable fn arg ap)) l). lia. }
  destruct (drain_due_fixed self' now n (survivors fn arg l) now0
              (survivors_sorted fn arg l S) L') as (x & R & a & _).
  eexists. exists {| dx_list := dx_list x; dx_now := dx_now x;
                     dx_fired := dx_fired x; dx_shown := dx_shown x;
                     dx_trace := [EvLock] ++ dx_trace x
                                 ++ rearm (dx_list x) (dx_now x) ++ [EvUnlock] |}.
  split; [reflexivity|]. cbn [cr_ret cr_list dx_fired].
  split; [exact K|]. split; [exact V|].
  split; [unfold eal_alarm_callback; now rewrite R|].
  assert (F : dx_fired x
              = filter (fun ap => due ap now && negb (matches fn arg ap)) l).
  { rewrite a, V. apply filter_filter. }
  split; [exact F|].
  rewrite F. apply Forall_forall. intros ap I.
  apply filter_In in I. destruct I as [_ I].
  apply andb_true_iff in I. destruct I as [_ I].
  now apply negb_true_iff in I.
Qed.

(** Scenario 3: after the wildcard cancel of [fn_f], a dispatch at 25 s
    fires the alarm of [fn_g] only. *)
Lemma cancel_then_dispatch_witness :
  exists rc rd,
    rte_eal_alarm_cancel tid_worker fn_f VOID_MINUS_ONE [] 0 three_idle = Some rc /\
    cr_ret rc = count_of (matches fn_f VOID_MINUS_ONE) three_idle /\
    cr_list rc = filter (fun ap => negb (matches fn_f VOID_MINUS_ONE ap)) three_idle /\
    eal_alarm_callback tid_dispatch
      (repeat (quiet_at {| ts_sec := 25; ts_nsec := 0 |}) 3)
      {| ts_sec := 0; ts_nsec := 0 |} (cr_list rc) = Some rd /\
    dx_fired rd
      = filter (fun ap => due ap {| ts_sec := 25; ts_nsec := 0 |}
                          && negb (matches fn_f VOID_MINUS_ONE ap)) three_idle /\
    Forall (fun ap => matches fn_f VOID_MINUS_ONE ap = false) (dx_fired rd).
Proof.
  apply (cancel_then_dispatch tid_worker fn_f VOID_MINUS_ONE [] 0 tid_dispatch
           {| ts_sec := 25; ts_nsec := 0 |} {| ts_sec := 0; ts_nsec := 0 |} 3
           three_idle).
  - discriminate.
  - repeat constructor.
  - repeat constructor; unfold entry_le, timeval_le; simpl; lia.
  - simpl; lia.
Defined.

(** ** Bring-up and tear-down of the timer handle *)

(** X17. [rte_eal_alarm_init] returns 0 or -1, and 0 exactly when the
    handle was allocated, its type and its descriptor were set, and the
    descriptor read back is not -1.  [timerfd_create] is called only
    once the handle is allocated and typed.  A failing call gives the
    handle, null or not, to [rte_intr_instance_free] as its last step and
    copies [errno] to [rte_errno]; a successful call frees nothing and
    leaves [rte_errno] alone.  Either way the static [intr_handle] keeps
    the value the allocation returned. *)
Theorem init_result_cases (env : init_env) (errno : Z) :
  let r := rte_eal_alarm_init env errno in
  (ir_ret r = 0 \/ ir_ret r = -1) /\
  (ir_ret r = 0
   <-> ie_alloc env <> NULL /\ ie_type_set env = 0 /\ ie_fd_set env = 0 /\
       ie_fd_get env <> -1) /\
  (In IeTimerfdCreate (ir_trace r)
   <-> ie_alloc env <> NULL /\ ie_type_set env = 0) /\
  ir_handle r = ie_alloc env /\
  (ir_ret r = 0 ->
   ir_errno r = errno /\ frees_of (ie_alloc env) (ir_trace r) = 0%nat) /\
  (ir_ret r = -1 ->
   ir_errno r = ie_errno env /\
   frees_of (ie_alloc env) (ir_trace r) = 1%nat /\
   exists calls, ir_trace r = calls ++ [IeFree (ie_alloc env)]).
Proof.
  unfold rte_eal_alarm_init, init_error, frees_of.
  destruct (Z.eqb_spec (ie_alloc env) NULL) as [A|A];
    [|destruct (Z.eqb_spec (ie_type_set env) 0) as [T|T];
      [destruct (Z.eqb_spec (ie_fd_set env) 0) as [F|F];
       [destruct (Z.eqb_spec (ie_fd_get env) (-1)) as [G|G]|]|]];
    cbn [negb ir_ret ir_handle ir_errno ir_trace app filter In length];
    rewrite ?Z.eqb_refl; cbn [length];
    repeat split; try tauto; try discriminate; try (intros; exfalso; tauto);
    try (intuition discriminate);
    try (exists [IeAlloc]; reflexivity);
    try (exists [IeAlloc; IeTypeSet (ie_alloc env)]; reflexivity);
    try (exists [IeAlloc; IeTypeSet (ie_alloc env); IeTimerfdCreate;
                 IeFdSet (ie_alloc env) (ie_timerfd env)]; reflexivity);
    try (exists [IeAlloc; IeTypeSet (ie_alloc env); IeTimerfdCreate;
                 IeFdSet (ie_alloc env) (ie_timerfd env);
                 IeFdGet (ie_alloc env)]; reflexivity);
    intros; auto.
Qed.

(** X18. Init followed by cleanup.  After a successful
    [rte_eal_alarm_init], [rte_eal_alarm_cleanup] gives the handle to
    [rte_intr_instance_free] once.  After a failed one the error path
    has freed the handle already and has not reset [intr_handle], so
    [rte_eal_alarm_cleanup] frees the same handle a second time. *)
Theorem init_then_cleanup_frees (env : init_env) (errno : Z) :
  let r := rte_eal_alarm_init env errno in
  let calls := ir_trace r ++ rte_eal_alarm_cleanup (ir_handle r) in
  (ir_ret r = 0 -> frees_of (ie_alloc env) calls = 1%nat) /\
  (ir_ret r = -1 -> frees_of (ie_alloc env) calls = 2%nat).
Proof.
  unfold rte_eal_alarm_init, init_error, rte_eal_alarm_cleanup, frees_of.
  destruct (ie_alloc env =? NULL);
    [|destruct (ie_type_set env =? 0);
      [destruct (ie_fd_set env =? 0); [destruct (ie_fd_get env =? -1)|]|]];
    cbn [negb ir_ret ir_handle ir_trace app filter];
    rewrite ?Z.eqb_refl; cbn [length]; split; intros H;
    try discriminate H; reflexivity.
Qed.
